(** * flash-cache: an in-memory key/value cache with per-entry expiry

    A shallow embedding of [src/flash-cache.js] (class [flashCache]) and the
    properties of its public operations [put], [get], [remove] and [dispose].

    Conventions of the embedding.
    - JavaScript numbers are integers ([Z]): the timestamps of [Date.now()]
      and the durations added to them.  [NaN], the infinities and fractions
      are outside the embedding.  The sum [time + expiryIn] is taken
      exactly; the source adds doubles, which is the same sum as long as the
      operands and the sum are [safe] (of magnitude at most 2^53, as every
      reading of [Date.now()] is).  Properties that give the value of such a
      sum assume that range.
    - [Date.now()] is an input of [put] (argument [now]).
    - The event emitter ([mitt]) is an external package: [emit] appends to a
      log of emitted events, in emission order.  Subscribers are observers.
    - A thrown [Error] is an outcome; the state paired with it is the state
      at the throw.
    - [./expirer] and [./constants/events] are imported by the source but are
      not part of it; what is needed of them is modelled from the
      specification and marked as such. *)

From stdpp Require Import base option numbers strings list gmap fin_maps.

Local Open Scope Z_scope.

(** ** JavaScript values *)

(** The payloads a caller can store.  [undefined] is not among them: an
    [undefined] argument triggers the default parameter of [put]. *)
#[warnings="-register-all"]
Inductive jsval :=
| VNull
| VBool (b : bool)
| VNum (n : Z)
| VStr (s : string)
| VObj (fields : list (string * jsval)).

(** JavaScript truthiness ([ToBoolean]). *)
Definition truthy (v : jsval) : bool :=
  match v with
  | VNull => false
  | VBool b => b
  | VNum n => negb (n =? 0)
  | VStr s => negb (String.eqb s "")
  | VObj _ => true
  end.

(** The own property [name] of a user object ([None] is [undefined]). *)
Fixpoint field (name : string) (fields : list (string * jsval)) : option jsval :=
  match fields with
  | [] => None
  | (k, v) :: rest => if String.eqb k name then Some v else field name rest
  end.

(** The [expiryIn] argument: documented as a Number, with [false] as the
    documented way to switch expiry off. *)
Inductive ttl :=
| TNull
| TBool (b : bool)
| TNum (n : Z).

Definition ttl_truthy (t : ttl) : bool :=
  match t with
  | TNull => false
  | TBool b => b
  | TNum n => negb (n =? 0)
  end.

(** [ToNumber], as applied by [time + expiryIn]. *)
Definition ttl_number (t : ttl) : Z :=
  match t with
  | TNull => 0
  | TBool b => if b then 1 else 0
  | TNum n => n
  end.

(** The integers among which doubles add exactly: those of magnitude at
    most 2^53.  Every one of them is a double, and the double sum of two of
    them is their sum when that is again one of them. *)
Definition safe (z : Z) : Prop :=
  -9007199254740992 ≤ z ≤ 9007199254740992.

(** ** Entries and the cache store *)

(** [const target = { value, time, expiryAt }]; [expiryAt = None] is [null]. *)
Record entry := Entry {
  value : jsval;
  time : Z;
  expiryAt : option Z
}.

(** What the expression [this.cacheStore[key]] can evaluate to. *)
Inductive slot :=
| SUndefined
| SEntry (target : entry)
| SValue (v : jsval)
| SBuiltin (name : string)
| SObjectPrototype.

Definition null : slot := SValue VNull.

Definition slot_truthy (x : slot) : bool :=
  match x with
  | SUndefined => false
  | SEntry _ => true
  | SValue v => truthy v
  | SBuiltin _ => true
  | SObjectPrototype => true
  end.

(** The function-valued properties of [Object.prototype]. *)
Definition object_prototype_methods : list string :=
  ["constructor"; "hasOwnProperty"; "isPrototypeOf"; "propertyIsEnumerable";
   "toLocaleString"; "toString"; "valueOf";
   "__defineGetter__"; "__defineSetter__";
   "__lookupGetter__"; "__lookupSetter__"]%string.

Definition object_prototype_get (key : string) : slot :=
  if bool_decide (key ∈ object_prototype_methods) then SBuiltin key
  else SUndefined.

(** The own properties of an entry object. *)
Definition entry_get (e : entry) (key : string) : option jsval :=
  if String.eqb key "value" then Some (value e)
  else if String.eqb key "time" then Some (VNum (time e))
  else if String.eqb key "expiryAt" then Some (from_option VNum VNull (expiryAt e))
  else None.

(** [cacheStore = {}]: a plain object.  [own] holds its own properties;
    [proto] is its prototype when that is no longer [Object.prototype]
    ([None]): assigning an object to the key [__proto__] runs the setter
    inherited from [Object.prototype], which replaces the prototype. *)
Record store := Store {
  own : gmap string entry;
  proto : option entry
}.

Definition empty_store : store := Store ∅ None.

(** [this.cacheStore[key]]: own property, then the prototype chain. *)
Definition store_get (st : store) (key : string) : slot :=
  match own st !! key with
  | Some e => SEntry e
  | None =>
      if String.eqb key "__proto__" then
        match proto st with
        | Some e => SEntry e
        | None => SObjectPrototype
        end
      else
        match proto st ≫= (λ e, entry_get e key) with
        | Some v => SValue v
        | None => object_prototype_get key
        end
  end.

(** [this.cacheStore[key] = target]. *)
Definition store_set (st : store) (key : string) (target : entry) : store :=
  match own st !! key with
  | Some _ => Store (<[key := target]> (own st)) (proto st)
  | None =>
      if String.eqb key "__proto__" then Store (own st) (Some target)
      else Store (<[key := target]> (own st)) (proto st)
  end.

(** [delete this.cacheStore[key]]: own properties only. *)
Definition store_delete (st : store) (key : string) : store :=
  Store (delete key (own st)) (proto st).

(** [Object.keys(this.cacheStore)]: the own enumerable keys.  JavaScript
    lists them in insertion order; the order used here differs, and
    [dispose], the only user, does not depend on it. *)
Definition Object_keys (st : store) : list string :=
  (map_to_list (own st)).*1.

(** [const { expiryAt } = target] ([None] is [undefined]). *)
Definition prop_expiryAt (target : slot) : option jsval :=
  match target with
  | SEntry e => Some (from_option VNum VNull (expiryAt e))
  | SValue (VObj fields) => field "expiryAt" fields
  | _ => None
  end.

(** ** The expirer *)

Module Expirer.

(** Modelled from the spec: [./expirer] (class [Expirer]) is not under
    src/.  The expiry index maps (timestamp, key) to the eviction callback
    registered for it; the bucket of a timestamp is the set of keys paired
    with it.  [running] tells whether the periodic scan is still
    scheduled. *)
Record t (C : Type) := Make {
  index : gmap (Z * string) C;
  running : bool;
  interval : Z
}.
Arguments Make {C} _ _ _.
Arguments index {C} _.
Arguments running {C} _.
Arguments interval {C} _.

(** Modelled from the spec: [new Expirer({ expiryCheckInterval })] starts
    with an empty index and the scan scheduled. *)
Definition create {C} (expiryCheckInterval : Z) : t C :=
  Make ∅ true expiryCheckInterval.

(** Modelled from the spec: [add(expiryAt, key, callback)] inserts or
    overwrites the registration of the pair. *)
Definition add {C} (expiryAt : Z) (key : string) (callback : C) (x : t C) : t C :=
  Make (<[(expiryAt, key) := callback]> (index x)) (running x) (interval x).

(** Modelled from the spec: [remove(expiryAt, key)] deletes the
    registration of the pair if present and leaves every other one alone;
    with [expiryAt] null or absent it does nothing.  Only a number can be a
    timestamp of the index. *)
Definition remove {C} (expiryAt : option jsval) (key : string) (x : t C) : t C :=
  match expiryAt with
  | Some (VNum ts) => Make (delete (ts, key) (index x)) (running x) (interval x)
  | _ => x
  end.

(** Modelled from the spec: the registrations a scan at [now] finds due
    are those whose timestamp is at most [now]. *)
Definition due {C} (now : Z) (x : t C) : list (Z * string) :=
  (map_to_list (filter (λ r, r.1.1 ≤ now) (index x))).*1.

(** Modelled from the spec: a fired registration leaves the index. *)
Definition take {C} (r : Z * string) (x : t C) : t C :=
  Make (delete r (index x)) (running x) (interval x).

(** Modelled from the spec: [dispose()] stops the scan and releases the
    index; pending registrations are discarded without firing. *)
Definition dispose {C} (x : t C) : t C :=
  Make ∅ false (interval x).

End Expirer.

(** ** Events *)

(** The members of [Events] used by the source. *)
Inductive event_name := FC_ADD | FC_GET | FC_REMOVE | FC_EXPIRY | FC_CLEAR.

#[global] Instance event_name_eq_dec : EqDecision event_name.
Proof. solve_decision. Defined.

(** Modelled from the spec: [./constants/events] is not under src/; the
    names under which the events are announced. *)
Definition event_label (n : event_name) : string :=
  match n with
  | FC_ADD => "added"
  | FC_GET => "fetched"
  | FC_REMOVE => "removed"
  | FC_EXPIRY => "expired"
  | FC_CLEAR => "cleared"
  end.

(** [{ key, data: target }] and [{}]. *)
Inductive payload :=
| KeyData (key : string) (data : slot)
| NoData.

Record event := Emit { ev_name : event_name; ev_payload : payload }.

(** ** The cache instance *)

(** The closure [onExpire] built by [put]: it captures [key] and [target]. *)
Record callback := OnExpire { cb_key : string; cb_target : entry }.

(** [this.config]; [defaultCacheExpiryIn = None] is [undefined]. *)
Record config_t := Config {
  defaultCacheExpiryIn : option ttl;
  expiryCheckInterval : Z
}.

Definition defaultConfig : config_t := Config (Some (TNum 60000)) 100.

(** The constructor argument: a property that is [None] is not there. *)
Record options := Options {
  opt_defaultCacheExpiryIn : option (option ttl);
  opt_expiryCheckInterval : option Z
}.

(** [{ ...this.defaultConfig, ...config }]. *)
Definition merge_config (d : config_t) (o : options) : config_t :=
  Config (default (defaultCacheExpiryIn d) (opt_defaultCacheExpiryIn o))
         (default (expiryCheckInterval d) (opt_expiryCheckInterval o)).

Record cache := Cache {
  cacheStore : store;
  config : config_t;
  instanceDisposed : bool;
  cacheExpirer : Expirer.t callback;
  emitted : list event
}.

(** [new flashCache(config)]. *)
Definition create (o : options) : cache :=
  let c := merge_config defaultConfig o in
  Cache empty_store c false (Expirer.create (expiryCheckInterval c)) [].

Definition with_store (f : store → store) (s : cache) : cache :=
  Cache (f (cacheStore s)) (config s) (instanceDisposed s) (cacheExpirer s) (emitted s).

Definition with_expirer (f : Expirer.t callback → Expirer.t callback) (s : cache) : cache :=
  Cache (cacheStore s) (config s) (instanceDisposed s) (f (cacheExpirer s)) (emitted s).

Definition with_disposed (b : bool) (s : cache) : cache :=
  Cache (cacheStore s) (config s) b (cacheExpirer s) (emitted s).

Definition with_event (e : event) (s : cache) : cache :=
  Cache (cacheStore s) (config s) (instanceDisposed s) (cacheExpirer s) (emitted s ++ [e]).

(** ** Methods as state transformers that may throw *)

Inductive outcome (A : Type) :=
| Returned (a : A)
| Thrown (message : string).
Arguments Returned {A} _.
Arguments Thrown {A} _.

Definition M (A : Type) : Type := cache → outcome A * cache.

Definition ret {A} (a : A) : M A := λ s, (Returned a, s).

Definition bind {A B} (m : M A) (k : A → M B) : M B :=
  λ s, match m s with
       | (Returned a, s') => k a s'
       | (Thrown msg, s') => (Thrown msg, s')
       end.

Definition throw {A} (message : string) : M A := λ s, (Thrown message, s).
Definition gets {A} (f : cache → A) : M A := λ s, (Returned (f s), s).
Definition modify (f : cache → cache) : M unit := λ s, (Returned tt, f s).

Notation "'let*' x := m 'in' k" := (bind m (λ x, k))
  (at level 10, x name, m at level 100, k at level 200, only parsing).
Notation "m >> k" := (bind m (λ _, k))
  (at level 100, k at level 200, right associativity, only parsing).

(** [array.forEach(f)]. *)
Fixpoint forEach {A B} (l : list A) (f : A → M B) : M unit :=
  match l with
  | [] => ret tt
  | x :: rest => f x >> forEach rest f
  end.

Definition disposed_message : string :=
  "This instance is already disposed. Please create new instance and try again.".

Definition checkIfInstanceIsDisposed : M unit :=
  let* d := gets instanceDisposed in
  if d then throw disposed_message else ret tt.

(** [this.emit(type, evt)]. *)
Definition emit (type : event_name) (evt : payload) : M unit :=
  modify (with_event (Emit type evt)).

(** [remove(key, shouldEmit = false)]. *)
Definition remove (key : string) (shouldEmit : option bool) : M bool :=
  let shouldEmit := default false shouldEmit in
  checkIfInstanceIsDisposed >>
  let* target := gets (λ s, store_get (cacheStore s) key) in
  if slot_truthy target then
    modify (with_store (λ st, store_delete st key)) >>
    let expiryAt := prop_expiryAt target in
    modify (with_expirer (Expirer.remove expiryAt key)) >>
    (if shouldEmit then emit FC_REMOVE (KeyData key target) else ret tt) >>
    ret true
  else
    ret false.

(** The body of the closure [onExpire]. *)
Definition onExpire (cb : callback) : M unit :=
  emit FC_EXPIRY (KeyData (cb_key cb) (SEntry (cb_target cb))) >>
  remove (cb_key cb) (Some true) >>
  ret tt.

(** [put(key = "", value = "", expiryIn = this.config.defaultCacheExpiryIn)];
    an argument that is [None] is omitted or [undefined].  The sum
    [time + expiryIn] is exact: it is the source's double sum for [safe]
    operands with a [safe] sum. *)
Definition put (now : Z) (key : option string) (value : option jsval)
    (expiryIn : option ttl) : M entry :=
  let key := default ""%string key in
  let value := default (VStr "") value in
  let* expiryIn := match expiryIn with
             | Some t => ret (Some t)
             | None => gets (λ s, defaultCacheExpiryIn (config s))
             end in
  checkIfInstanceIsDisposed >>
  let* present := gets (λ s, store_get (cacheStore s) key) in
  (if slot_truthy present then remove key None >> ret tt else ret tt) >>
  let time := now in
  let expiryAt :=
    match expiryIn with
    | Some t => if ttl_truthy t then Some (time + ttl_number t) else None
    | None => None
    end in
  let target := Entry value time expiryAt in
  modify (with_store (λ st, store_set st key target)) >>
  match expiryAt with
  | Some ts =>
      if negb (ts =? 0) then
        modify (with_expirer (Expirer.add ts key (OnExpire key target)))
      else ret tt
  | None => ret tt
  end >>
  emit FC_ADD (KeyData key (SEntry target)) >>
  ret target.

(** [get(key = "")]. *)
Definition get (key : option string) : M slot :=
  let key := default ""%string key in
  checkIfInstanceIsDisposed >>
  let* target := gets (λ s, store_get (cacheStore s) key) in
  if slot_truthy target then
    emit FC_GET (KeyData key target) >>
    ret target
  else
    ret null.

(** [dispose()]. *)
Definition dispose : M bool :=
  checkIfInstanceIsDisposed >>
  let* keys := gets (λ s, Object_keys (cacheStore s)) in
  forEach keys (λ key, remove key None) >>
  emit FC_CLEAR NoData >>
  modify (with_expirer Expirer.dispose) >>
  modify (with_disposed true) >>
  ret true.

(** ** The periodic scan *)

(** Modelled from the spec: the scan of [./expirer] is not under src/.  A
    due registration that is still pending leaves the index and its callback
    runs once. *)
Definition fire (r : Z * string) : M unit :=
  let* reg := gets (λ s, Expirer.index (cacheExpirer s) !! r) in
  match reg with
  | Some cb => modify (with_expirer (Expirer.take r)) >> onExpire cb
  | None => ret tt
  end.

(** Modelled from the spec: one tick at time [now] processes every
    registration due at [now]; a disposed expirer no longer ticks. *)
Definition tick (now : Z) : M unit :=
  let* on := gets (λ s, Expirer.running (cacheExpirer s)) in
  if on then
    let* due := gets (λ s, Expirer.due now (cacheExpirer s)) in
    forEach due fire
  else ret tt.

(** ** Runs of a cache instance *)

(** What can happen to an instance: a call of a public method, or a tick of
    the expirer's scan. *)
Inductive op :=
| Put (now : Z) (key : option string) (value : option jsval) (expiryIn : option ttl)
| Get (key : option string)
| Remove (key : string) (shouldEmit : option bool)
| Dispose
| Tick (now : Z).

(** The state an operation leaves behind, whether it returns or throws. *)
Definition exec (o : op) (s : cache) : cache :=
  match o with
  | Put now key value expiryIn => (put now key value expiryIn s).2
  | Get key => (get key s).2
  | Remove key shouldEmit => (remove key shouldEmit s).2
  | Dispose => (dispose s).2
  | Tick now => (tick now s).2
  end.

Definition execs (os : list op) (s : cache) : cache :=
  foldl (λ s o, exec o s) s os.

Inductive reachable : cache → Prop :=
| reachable_create (o : options) : reachable (create o)
| reachable_exec (o : op) (s : cache) : reachable s → reachable (exec o s).

(** The pending registrations of a key. *)
Definition pending (key : string) (s : cache) : gmap (Z * string) callback :=
  filter (λ r, r.1.2 = key) (Expirer.index (cacheExpirer s)).

(** The events of a log that carry a given name and key. *)
Definition about (n : event_name) (key : string) (ev : event) : bool :=
  match ev with
  | Emit n' (KeyData k _) => bool_decide (n' = n) && String.eqb k key
  | Emit _ NoData => false
  end.

(** ** Closed forms of the state changes, used to reason about the methods *)

(** The state after the [if (target)] branch of [remove]. *)
Definition removed (key : string) (target : slot) (shouldEmit : bool) (s : cache) : cache :=
  Cache (store_delete (cacheStore s) key) (config s) (instanceDisposed s)
        (Expirer.remove (prop_expiryAt target) key (cacheExpirer s))
        (if shouldEmit then emitted s ++ [Emit FC_REMOVE (KeyData key target)]
         else emitted s).

(** The state after the first statement of [put] past the guard. *)
Definition cleared (key : string) (s : cache) : cache :=
  let present := store_get (cacheStore s) key in
  if slot_truthy present then removed key present false s else s.

(** The value of [expiryIn] after the default parameter is applied. *)
Definition effective_ttl (expiryIn : option ttl) (s : cache) : option ttl :=
  match expiryIn with
  | Some t => Some t
  | None => defaultCacheExpiryIn (config s)
  end.

(** Its truthiness; [undefined] is falsy. *)
Definition option_ttl_truthy (t : option ttl) : bool :=
  from_option ttl_truthy false t.

(** The object [target] that [put] builds. *)
Definition new_entry (now : Z) (value : option jsval) (expiryIn : option ttl) : entry :=
  Entry (default (VStr "") value) now
        (match expiryIn with
         | Some t => if ttl_truthy t then Some (now + ttl_number t) else None
         | None => None
         end).

(** The state after the rest of [put]. *)
Definition installed (key : string) (target : entry) (s : cache) : cache :=
  Cache (store_set (cacheStore s) key target) (config s) (instanceDisposed s)
        (match expiryAt target with
         | Some ts =>
             if negb (ts =? 0)
             then Expirer.add ts key (OnExpire key target) (cacheExpirer s)
             else cacheExpirer s
         | None => cacheExpirer s
         end)
        (emitted s ++ [Emit FC_ADD (KeyData key (SEntry target))]).

(** The registrations an entry stored under [key] is expected to have. *)
Definition scheduled (key : string) (e : entry) : gmap (Z * string) callback :=
  match expiryAt e with
  | Some ts => if ts =? 0 then ∅ else {[ (ts, key) := OnExpire key e ]}
  | None => ∅
  end.

(** The events named [n] that an instance has emitted about [key]. *)
Definition events_about (n : event_name) (key : string) (s : cache) : list event :=
  List.filter (about n key) (emitted s).

(** An operation that may delete or replace the entry of [key]. *)
Definition touches (key : string) (o : op) : bool :=
  match o with
  | Put _ k _ _ => String.eqb (default ""%string k) key
  | Remove k _ => String.eqb k key
  | Dispose => true
  | Get _ | Tick _ => false
  end.

(** Nothing truthy is inherited under [key]: once the own property (if any)
    is deleted, the lookup of [key] is falsy. *)
Definition plain (st : store) (key : string) : Prop :=
  slot_truthy (store_get (store_delete st key) key) = false.

(** An operation that assigns to the key [__proto__] of the store. *)
Definition sets_prototype (o : op) : bool :=
  match o with
  | Put _ k _ _ => String.eqb (default ""%string k) "__proto__"
  | _ => false
  end.

(** [Object.keys(this.cacheStore).forEach(key => this.remove(key))], with
    the keys enumerated in the order of [keys]. *)
Definition sweep (keys : list string) (s : cache) : cache :=
  (forEach keys (λ key, remove key None) s).2.

(** The operations that are calls of a public method. *)
Definition is_call (o : op) : bool :=
  match o with
  | Tick _ => false
  | _ => true
  end.

(** An operation that neither touches [k] nor is a tick at or after
    [deadline] (when there is one). *)
Definition leaves_alone (k : string) (deadline : option Z) (o : op) : Prop :=
  touches k o = false ∧
  ∀ now ts, o = Tick now → deadline = Some ts → now < ts.

(** The correspondence between the store and the expiry index that every
    run maintains. *)
Record consistent (s : cache) : Prop := Consistent {
  pending_live : ∀ ts k cb,
    Expirer.index (cacheExpirer s) !! (ts, k) = Some cb →
    ts ≠ 0 ∧ ∃ e, store_get (cacheStore s) k = SEntry e ∧
                  expiryAt e = Some ts ∧ cb = OnExpire k e;
  stored_pending : ∀ k e ts,
    own (cacheStore s) !! k = Some e → expiryAt e = Some ts → ts ≠ 0 →
    Expirer.index (cacheExpirer s) !! (ts, k) = Some (OnExpire k e);
  proto_not_own : own (cacheStore s) !! "__proto__"%string = None;
  disposed_stopped :
    instanceDisposed s = true → Expirer.running (cacheExpirer s) = false
}.

(** * Properties *)

(** ** Evaluation of the methods *)

Lemma remove_unfold key b s :
  remove key b s =
    if instanceDisposed s then (Thrown disposed_message, s)
    else if slot_truthy (store_get (cacheStore s) key)
         then (Returned true,
               removed key (store_get (cacheStore s) key) (default false b) s)
         else (Returned false, s).
Proof.
  destruct s as [st c [] x ev]; [reflexivity|].
  unfold remove, removed, bind, gets, checkIfInstanceIsDisposed; cbn.
  destruct (slot_truthy (store_get st key)); [|reflexivity].
  destruct b as [[]|]; reflexivity.
Qed.

Lemma put_unfold now key v expiryIn s :
  put now key v expiryIn s =
    if instanceDisposed s then (Thrown disposed_message, s)
    else let k := default ""%string key in
         let target := new_entry now v (effective_ttl expiryIn s) in
         (Returned target, installed k target (cleared k s)).
Proof.
  unfold put. unfold bind at 1.
  assert (Heff : (match expiryIn with
                  | Some t => ret (Some t)
                  | None => gets (λ s, defaultCacheExpiryIn (config s))
                  end) s = (Returned (effective_ttl expiryIn s), s))
    by (destruct expiryIn; reflexivity).
  rewrite Heff. clear Heff.
  unfold bind at 1. unfold checkIfInstanceIsDisposed, bind at 1, gets at 1.
  destruct (instanceDisposed s) eqn:Hd; [reflexivity|].
  cbn [ret]. unfold bind at 1, gets at 1. unfold bind at 1.
  unfold cleared.
  destruct (slot_truthy (store_get (cacheStore s) (default ""%string key))) eqn:Ht.
  - unfold bind at 1. rewrite remove_unfold, Hd, Ht. cbn [ret default].
    unfold installed, new_entry.
    destruct (effective_ttl expiryIn s) as [t|]; [destruct (ttl_truthy t)|];
      cbn; try destruct (_ =? 0); reflexivity.
  - cbn [ret]. unfold installed, new_entry.
    destruct (effective_ttl expiryIn s) as [t|]; [destruct (ttl_truthy t)|];
      cbn; try destruct (_ =? 0); reflexivity.
Qed.

Lemma get_unfold key s :
  get key s =
    if instanceDisposed s then (Thrown disposed_message, s)
    else let k := default ""%string key in
         let target := store_get (cacheStore s) k in
         if slot_truthy target
         then (Returned target, with_event (Emit FC_GET (KeyData k target)) s)
         else (Returned null, s).
Proof.
  destruct s as [st c [] x ev]; [reflexivity|].
  unfold get, bind, gets, checkIfInstanceIsDisposed; cbn.
  destruct (slot_truthy (store_get st (default ""%string key))); reflexivity.
Qed.

(** ** The store as a JavaScript object *)

Lemma store_get_own st k e :
  own st !! k = Some e → store_get st k = SEntry e.
Proof. intros H. unfold store_get. by rewrite H. Qed.

Lemma store_get_falsy_own st k :
  slot_truthy (store_get st k) = false → own st !! k = None.
Proof.
  unfold store_get. destruct (own st !! k); [discriminate | done].
Qed.

Lemma store_get_entry_inv st k e :
  store_get st k = SEntry e →
  own st !! k = Some e ∨
  (k = "__proto__"%string ∧ own st !! k = None ∧ proto st = Some e).
Proof.
  unfold store_get. destruct (own st !! k) as [e'|] eqn:Hk.
  - intros [= ->]. by left.
  - destruct (String.eqb_spec k "__proto__") as [->|Hne].
    + destruct (proto st); [intros [= ->]; by right | discriminate].
    + destruct (proto st ≫= _); [discriminate|].
      unfold object_prototype_get. case_bool_decide; discriminate.
Qed.

Lemma store_delete_absent st k :
  own st !! k = None → store_delete st k = st.
Proof.
  intros H. destruct st as [o p]. unfold store_delete; cbn in *.
  by rewrite delete_id.
Qed.

Lemma store_get_delete_ne st k k' :
  k' ≠ k → store_get (store_delete st k) k' = store_get st k'.
Proof.
  intros Hne. unfold store_get, store_delete; cbn.
  by rewrite lookup_delete_ne.
Qed.

Lemma store_get_set_eq st k e :
  store_get (store_set st k e) k = SEntry e.
Proof.
  unfold store_set.
  destruct (own st !! k) as [e'|] eqn:Hk.
  - apply store_get_own. cbn. by rewrite lookup_insert_eq.
  - destruct (String.eqb_spec k "__proto__") as [->|Hne].
    + unfold store_get; cbn. by rewrite Hk.
    + apply store_get_own. cbn. by rewrite lookup_insert_eq.
Qed.

Lemma own_store_set_ne st k e k' :
  k' ≠ k → own (store_set st k e) !! k' = own st !! k'.
Proof.
  intros Hne. unfold store_set.
  destruct (own st !! k); [cbn; by rewrite lookup_insert_ne|].
  destruct (String.eqb k "__proto__"); cbn; [done|by rewrite lookup_insert_ne].
Qed.

Lemma store_get_set_entry_ne st k e k' e' :
  k' ≠ k → store_get st k' = SEntry e' →
  store_get (store_set st k e) k' = SEntry e'.
Proof.
  intros Hne [Ho | (-> & Ho & Hp)]%store_get_entry_inv.
  - apply store_get_own. by rewrite own_store_set_ne.
  - unfold store_get. rewrite own_store_set_ne, Ho by done. cbn.
    unfold store_set. destruct (own st !! k); cbn; [by rewrite Hp|].
    destruct (String.eqb_spec k "__proto__") as [->|_]; [done|].
    cbn. by rewrite Hp.
Qed.

Lemma own_store_set_proto st k e :
  own st !! "__proto__"%string = None →
  own (store_set st k e) !! "__proto__"%string = None.
Proof.
  intros H. unfold store_set.
  destruct (own st !! k) eqn:Hk.
  - cbn. rewrite lookup_insert_ne; [done | congruence].
  - destruct (String.eqb_spec k "__proto__") as [->|Hne]; cbn; [done|].
    by rewrite lookup_insert_ne.
Qed.

(** ** The store and the expiry index stay in step *)

Lemma consistent_create o : consistent (create o).
Proof. split; cbn; intros; (done || by rewrite ?lookup_empty in *). Qed.

Lemma consistent_with_event ev s : consistent s → consistent (with_event ev s).
Proof. intros [H1 H2 H3 H4]. by split. Qed.

Lemma index_remove_subset (ex : option jsval) k (x : Expirer.t callback) r cb :
  Expirer.index (Expirer.remove ex k x) !! r = Some cb →
  Expirer.index x !! r = Some cb.
Proof.
  unfold Expirer.remove. destruct ex as [[]|]; cbn; try done.
  rewrite lookup_delete_Some. by intros [_ ?].
Qed.

Lemma consistent_removed k b s :
  consistent s →
  consistent (removed k (store_get (cacheStore s) k) b s).
Proof.
  intros [H1 H2 H3 H4]. split; cbn.
  - intros ts k' cb Hreg.
    pose proof (index_remove_subset _ _ _ _ _ Hreg) as Hold.
    destruct (H1 _ _ _ Hold) as (Hts & e & Hget & Hexp & ->).
    split; [done|]. exists e. split_and!; try done.
    destruct (decide (k' = k)) as [->|Hne].
    + exfalso. rewrite Hget in Hreg. cbn in Hreg. rewrite Hexp in Hreg.
      cbn in Hreg. by rewrite lookup_delete_eq in Hreg.
    + by rewrite store_get_delete_ne.
  - intros k' e ts [Hne Ho]%lookup_delete_Some Hexp Hts.
    pose proof (H2 _ _ _ Ho Hexp Hts) as Hreg.
    unfold Expirer.remove.
    destruct (prop_expiryAt _) as [[]|]; cbn; try done.
    rewrite lookup_delete_ne; [done | congruence].
  - rewrite lookup_delete_None. by right.
  - intros Hd. specialize (H4 Hd). unfold Expirer.remove.
    by destruct (prop_expiryAt _) as [[]|].
Qed.

Lemma consistent_cleared k s : consistent s → consistent (cleared k s).
Proof.
  intros H. unfold cleared.
  destruct (slot_truthy _); [by apply consistent_removed | done].
Qed.

Lemma own_cleared k s : own (cacheStore (cleared k s)) !! k = None.
Proof.
  unfold cleared. destruct (slot_truthy _) eqn:Ht.
  - cbn. apply lookup_delete_eq.
  - by apply store_get_falsy_own.
Qed.

Lemma no_pending_cleared k s ts :
  consistent s → Expirer.index (cacheExpirer (cleared k s)) !! (ts, k) = None.
Proof.
  intros Hc. destruct (_ !! (ts, k)) as [cb|] eqn:Hreg; [exfalso | done].
  unfold cleared in Hreg. destruct (slot_truthy _) eqn:Ht.
  - cbn in Hreg. pose proof (index_remove_subset _ _ _ _ _ Hreg) as Hold.
    destruct (pending_live _ Hc _ _ _ Hold) as (_ & e & Hget & Hexp & _).
    rewrite Hget in Hreg. cbn in Hreg. rewrite Hexp in Hreg. cbn in Hreg.
    by rewrite lookup_delete_eq in Hreg.
  - destruct (pending_live _ Hc _ _ _ Hreg) as (_ & e & Hget & _).
    by rewrite Hget in Ht.
Qed.

Lemma consistent_installed k e s :
  consistent s →
  own (cacheStore s) !! k = None →
  (∀ ts, Expirer.index (cacheExpirer s) !! (ts, k) = None) →
  consistent (installed k e s).
Proof.
  intros [H1 H2 H3 H4] Hown Hfree.
  assert (Hkeep : ∀ ts k' cb,
    Expirer.index (cacheExpirer s) !! (ts, k') = Some cb →
    ts ≠ 0 ∧ ∃ e', store_get (store_set (cacheStore s) k e) k' = SEntry e' ∧
                   expiryAt e' = Some ts ∧ cb = OnExpire k' e').
  { intros ts k' cb Hreg. destruct (H1 _ _ _ Hreg) as (Hts & e' & Hget & Hexp & ->).
    split; [done|]. exists e'. split_and!; try done.
    apply store_get_set_entry_ne; [|done].
    intros ->. by rewrite Hfree in Hreg. }
  assert (Hstored : ∀ k' e' ts,
    k' ≠ k → own (store_set (cacheStore s) k e) !! k' = Some e' →
    expiryAt e' = Some ts → ts ≠ 0 →
    Expirer.index (cacheExpirer s) !! (ts, k') = Some (OnExpire k' e')).
  { intros k' e' ts Hne Ho. rewrite own_store_set_ne in Ho by done. eauto. }
  assert (Hself : ∀ e', own (store_set (cacheStore s) k e) !! k = Some e' → e' = e).
  { intros e' Ho. apply store_get_own in Ho. rewrite store_get_set_eq in Ho.
    congruence. }
  split; cbn.
  - intros ts k' cb.
    destruct (expiryAt e) as [te|] eqn:He; [|by apply Hkeep].
    destruct (te =? 0) eqn:Hz; cbn; [by apply Hkeep|].
    rewrite lookup_insert. case_decide as Heq; [|by apply Hkeep].
    injection Heq as <- <-. intros [= <-].
    split; [lia|]. exists e. by rewrite store_get_set_eq.
  - intros k' e' ts Ho Hexp Hts.
    destruct (decide (k' = k)) as [->|Hne].
    + apply Hself in Ho as ->. rewrite Hexp.
      destruct (ts =? 0) eqn:Hz; [lia|]. cbn. by rewrite lookup_insert_eq.
    + pose proof (Hstored _ _ _ Hne Ho Hexp Hts) as Hreg.
      destruct (expiryAt e) as [te|]; [|done].
      destruct (te =? 0); cbn; [done|].
      rewrite lookup_insert_ne; [done | congruence].
  - by apply own_store_set_proto.
  - intros Hd. specialize (H4 Hd).
    destruct (expiryAt e) as [te|]; [|done]. by destruct (te =? 0).
Qed.

Lemma consistent_put now key v expiryIn s :
  consistent s → consistent (put now key v expiryIn s).2.
Proof.
  intros Hc. rewrite put_unfold. destruct (instanceDisposed s); [done|].
  cbn. apply consistent_installed.
  - by apply consistent_cleared.
  - apply own_cleared.
  - intros ts. by apply no_pending_cleared.
Qed.

Lemma consistent_remove key b s :
  consistent s → consistent (remove key b s).2.
Proof.
  intros Hc. rewrite remove_unfold. destruct (instanceDisposed s); [done|].
  destruct (slot_truthy _); [|done]. by apply consistent_removed.
Qed.

Lemma consistent_get key s :
  consistent s → consistent (get key s).2.
Proof.
  intros Hc. rewrite get_unfold. destruct (instanceDisposed s); [done|].
  cbn. destruct (slot_truthy _); [|done]. by apply consistent_with_event.
Qed.

(** ** Loops over lists of keys and registrations *)

Lemma forEach_invariant {A B} (P : cache → Prop) (Q : A → Prop)
    (f : A → M B) (l : list A) s :
  (∀ x s, Q x → P s → ∃ b s', f x s = (Returned b, s') ∧ P s') →
  Forall Q l → P s →
  ∃ s', forEach l f s = (Returned tt, s') ∧ P s'.
Proof.
  intros Hstep Hl. revert s.
  induction Hl as [|x l Hx Hl IH]; intros s HP; [by exists s|].
  destruct (Hstep x s Hx HP) as (b & s1 & Hf & HP1).
  destruct (IH s1 HP1) as (s2 & Hrest & HP2).
  exists s2. split; [|done]. cbn. unfold bind. by rewrite Hf.
Qed.

Lemma lookup_foldl_delete {V} (l : list string) (m : gmap string V) k :
  foldl (λ m k, delete k m) m l !! k = if bool_decide (k ∈ l) then None else m !! k.
Proof.
  revert m. induction l as [|x l IH]; intros m; cbn; [done|].
  rewrite IH.
  destruct (decide (k = x)) as [->|Hne].
  - rewrite lookup_delete_eq, (bool_decide_eq_true_2 (x ∈ x :: l)) by left.
    by destruct (bool_decide _).
  - rewrite lookup_delete_ne by done.
    rewrite (bool_decide_ext (k ∈ x :: l) (k ∈ l)); [done|].
    rewrite elem_of_cons. split; [by intros [?|?] | by right].
Qed.

(** What a silent [remove] does to a live instance, hit or miss. *)
Lemma remove_silent key s :
  instanceDisposed s = false →
  ∃ b s', remove key None s = (Returned b, s') ∧
    instanceDisposed s' = false ∧ config s' = config s ∧
    emitted s' = emitted s ∧
    proto (cacheStore s') = proto (cacheStore s) ∧
    own (cacheStore s') = delete key (own (cacheStore s)) ∧
    Expirer.interval (cacheExpirer s') = Expirer.interval (cacheExpirer s) ∧
    Expirer.running (cacheExpirer s') = Expirer.running (cacheExpirer s).
Proof.
  intros Hd. rewrite remove_unfold, Hd.
  destruct (slot_truthy _) eqn:Ht.
  - eexists _, _. split; [done|]. cbn. split_and!; try done;
      unfold Expirer.remove; by destruct (prop_expiryAt _) as [[]|].
  - eexists _, _. split; [done|]. split_and!; try done.
    by rewrite delete_id by by apply store_get_falsy_own.
Qed.

Lemma forEach_remove_silent l s :
  instanceDisposed s = false →
  ∃ s', forEach l (λ key, remove key None) s = (Returned tt, s') ∧
    instanceDisposed s' = false ∧ config s' = config s ∧
    emitted s' = emitted s ∧
    proto (cacheStore s') = proto (cacheStore s) ∧
    own (cacheStore s') = foldl (λ m k, delete k m) (own (cacheStore s)) l ∧
    Expirer.interval (cacheExpirer s') = Expirer.interval (cacheExpirer s) ∧
    Expirer.running (cacheExpirer s') = Expirer.running (cacheExpirer s).
Proof.
  revert s. induction l as [|k l IH]; intros s Hd; [by exists s|].
  destruct (remove_silent k s Hd) as (b & s1 & Hr & Hd1 & Hc & He & Hp & Ho & Hi & Hrun).
  destruct (IH s1 Hd1) as (s2 & Hrest & Hd2 & Hc2 & He2 & Hp2 & Ho2 & Hi2 & Hrun2).
  exists s2. cbn. unfold bind. rewrite Hr. split; [done|].
  split_and!; congruence.
Qed.

(** [dispose] in closed form. *)
Lemma dispose_unfold s :
  dispose s =
    if instanceDisposed s then (Thrown disposed_message, s)
    else (Returned true,
          Cache (Store ∅ (proto (cacheStore s))) (config s) true
                (Expirer.Make ∅ false (Expirer.interval (cacheExpirer s)))
                (emitted s ++ [Emit FC_CLEAR NoData])).
Proof.
  destruct (instanceDisposed s) eqn:Hd.
  - unfold dispose, bind, checkIfInstanceIsDisposed, bind, gets. by rewrite Hd.
  - destruct (forEach_remove_silent (Object_keys (cacheStore s)) s Hd)
      as (s' & Hrun & Hd' & Hc & He & Hp & Ho & Hi & _).
    unfold dispose, bind, checkIfInstanceIsDisposed, bind, gets. rewrite Hd.
    cbn [ret]. rewrite Hrun. cbn. unfold with_disposed, with_expirer, with_event.
    cbn. unfold ret, Expirer.dispose. rewrite He, Hc, Hi. do 2 f_equal.
    destruct (cacheStore s') as [o p]; cbn in *. subst p. f_equal.
    rewrite Ho. apply map_eq. intros k. rewrite lookup_foldl_delete, lookup_empty.
    case_bool_decide as Hin; [done|].
    destruct (own (cacheStore s) !! k) as [e|] eqn:Hk; [exfalso | done].
    apply Hin. unfold Object_keys. apply list_elem_of_fmap.
    exists (k, e). split; [done|]. by apply elem_of_map_to_list.
Qed.

Lemma consistent_dispose s : consistent s → consistent (dispose s).2.
Proof.
  intros Hc. rewrite dispose_unfold. destruct (instanceDisposed s); [done|].
  split; cbn; intros; (done || by rewrite ?lookup_empty in *).
Qed.

(** ** The scan *)

Lemma fire_unfold r s :
  fire r s =
    match Expirer.index (cacheExpirer s) !! r with
    | Some cb => onExpire cb (with_expirer (Expirer.take r) s)
    | None => (Returned tt, s)
    end.
Proof.
  unfold fire, bind, gets. by destruct (Expirer.index (cacheExpirer s) !! r).
Qed.

Lemma onExpire_unfold cb s :
  instanceDisposed s = false →
  onExpire cb s =
    let k := cb_key cb in
    let s1 := with_event (Emit FC_EXPIRY (KeyData k (SEntry (cb_target cb)))) s in
    let target := store_get (cacheStore s) k in
    (Returned tt, if slot_truthy target then removed k target true s1 else s1).
Proof.
  intros Hd. unfold onExpire, bind, emit, modify.
  rewrite remove_unfold. cbn. rewrite Hd.
  by destruct (slot_truthy _).
Qed.

Lemma tick_unfold now s :
  tick now s =
    if Expirer.running (cacheExpirer s)
    then forEach (Expirer.due now (cacheExpirer s)) fire s
    else (Returned tt, s).
Proof.
  unfold tick, bind, gets. by destruct (Expirer.running _).
Qed.

Lemma due_spec {C} now (x : Expirer.t C) :
  Forall (λ r, r.1 ≤ now) (Expirer.due now x).
Proof.
  apply Forall_forall. intros r [[r' cb] [-> Hin]]%list_elem_of_fmap.
  apply elem_of_map_to_list in Hin.
  by apply map_lookup_filter_Some in Hin as [_ ?].
Qed.

(** A registration that fires on a live, consistent instance emits
    [FC_EXPIRY] and then removes its key with notification. *)
Lemma fire_pending ts k cb s :
  consistent s → instanceDisposed s = false →
  Expirer.index (cacheExpirer s) !! (ts, k) = Some cb →
  ∃ e, store_get (cacheStore s) k = SEntry e ∧ expiryAt e = Some ts ∧
       cb = OnExpire k e ∧
       fire (ts, k) s =
         (Returned tt,
          removed k (SEntry e) true
            (with_event (Emit FC_EXPIRY (KeyData k (SEntry e))) s)).
Proof.
  intros Hc Hd Hreg.
  destruct (pending_live _ Hc _ _ _ Hreg) as (Hts & e & Hget & Hexp & ->).
  exists e. split_and!; try done.
  rewrite fire_unfold, Hreg, onExpire_unfold by done. cbn.
  rewrite Hget. cbn. f_equal. unfold removed; cbn. f_equal.
  rewrite Hexp. cbn. by rewrite delete_delete_eq.
Qed.

Lemma filter_about_snoc n k l ev :
  about n k ev = false → List.filter (about n k) (l ++ [ev]) = List.filter (about n k) l.
Proof. intros H. rewrite List.filter_app. cbn. rewrite H. apply app_nil_r. Qed.

Lemma fire_step r s :
  consistent s → instanceDisposed s = false →
  ∃ s', fire r s = (Returned tt, s') ∧ consistent s' ∧ instanceDisposed s' = false ∧
    ∀ k e, store_get (cacheStore s) k = SEntry e →
           (∀ ts, expiryAt e = Some ts → ts ≠ 0 → r ≠ (ts, k)) →
           store_get (cacheStore s') k = SEntry e ∧
           events_about FC_EXPIRY k s' = events_about FC_EXPIRY k s.
Proof.
  intros Hc Hd. destruct r as [ts k'].
  destruct (Expirer.index (cacheExpirer s) !! (ts, k')) as [cb|] eqn:Hreg.
  - destruct (fire_pending _ _ _ _ Hc Hd Hreg) as (e' & Hget & Hexp & -> & Hfire).
    eexists. split; [exact Hfire|].
    pose proof (consistent_with_event
      (Emit FC_EXPIRY (KeyData k' (SEntry e'))) s Hc) as Hc1.
    pose proof (consistent_removed k' true _ Hc1) as Hc2.
    cbn [with_event cacheStore] in Hc2. rewrite Hget in Hc2.
    split_and!; [done..|].
    intros k e Hk Hfar.
    assert (k ≠ k') as Hne.
    { intros ->. rewrite Hget in Hk. injection Hk as ->.
      destruct (pending_live _ Hc _ _ _ Hreg) as (Hts & _).
      by apply (Hfar ts). }
    split.
    + cbn. by rewrite store_get_delete_ne.
    + unfold events_about; cbn. rewrite !filter_about_snoc; [done|..]; cbn.
      * by apply String.eqb_neq.
      * done.
  - exists s. rewrite fire_unfold, Hreg. by split_and!.
Qed.

Lemma running_live s :
  consistent s → Expirer.running (cacheExpirer s) = true →
  instanceDisposed s = false.
Proof.
  intros Hc Hrun. destruct (instanceDisposed s) eqn:Hd; [|done].
  pose proof (disposed_stopped _ Hc Hd). congruence.
Qed.

(** A scan returns, and leaves the instance live and consistent. *)
Lemma scan_live l s :
  consistent s → instanceDisposed s = false →
  ∃ s', forEach l fire s = (Returned tt, s') ∧
        consistent s' ∧ instanceDisposed s' = false.
Proof.
  intros Hc Hd.
  apply (forEach_invariant (λ s, consistent s ∧ instanceDisposed s = false)
                           (λ _, True)); [| by apply Forall_true | done].
  intros r s1 _ [Hc1 Hd1].
  destruct (fire_step r s1 Hc1 Hd1) as (s2 & Hf & Hc2 & Hd2 & _). eauto.
Qed.

Lemma consistent_tick now s : consistent s → consistent (tick now s).2.
Proof.
  intros Hc. rewrite tick_unfold.
  destruct (Expirer.running (cacheExpirer s)) eqn:Hrun; [|done].
  destruct (scan_live (Expirer.due now (cacheExpirer s)) s Hc)
    as (s' & -> & Hc' & _); [by apply running_live | done].
Qed.

Lemma consistent_exec o s : consistent s → consistent (exec o s).
Proof.
  destruct o; cbn.
  - apply consistent_put.
  - apply consistent_get.
  - apply consistent_remove.
  - apply consistent_dispose.
  - apply consistent_tick.
Qed.

Lemma reachable_consistent s : reachable s → consistent s.
Proof.
  induction 1 as [o | o s _ IH]; [apply consistent_create | by apply consistent_exec].
Qed.

Lemma reachable_execs os s : reachable s → reachable (execs os s).
Proof.
  revert s. induction os as [|o os IH]; intros s Hs; [done|].
  cbn. apply IH. by constructor.
Qed.

(** ** Stored entries and their registrations *)

Lemma pending_stored s k e :
  consistent s → own (cacheStore s) !! k = Some e → pending k s = scheduled k e.
Proof.
  intros Hc Ho. apply map_eq. intros [ts k']. apply option_eq. intros cb.
  unfold pending. rewrite map_lookup_filter_Some. cbn. split.
  - intros [Hreg ->].
    destruct (pending_live _ Hc _ _ _ Hreg) as (Hts & e' & Hget & Hexp & ->).
    rewrite (store_get_own _ _ _ Ho) in Hget. injection Hget as <-.
    unfold scheduled. rewrite Hexp. destruct (ts =? 0) eqn:Hz; [lia|].
    by rewrite lookup_singleton_eq.
  - unfold scheduled. destruct (expiryAt e) as [te|] eqn:Hexp; [|by rewrite lookup_empty].
    destruct (te =? 0) eqn:Hz; [by rewrite lookup_empty|].
    intros [[= <- <-] <-]%lookup_singleton_Some.
    split; [|done]. apply (stored_pending _ Hc); [done..|lia].
Qed.

Lemma pending_gone s k :
  consistent s → own (cacheStore s) !! k = None → k ≠ "__proto__"%string →
  pending k s = ∅.
Proof.
  intros Hc Ho Hk. apply map_eq. intros [ts k']. rewrite lookup_empty.
  apply map_lookup_filter_None. right. intros cb Hreg. cbn. intros ->.
  destruct (pending_live _ Hc _ _ _ Hreg) as (_ & e & Hget & _).
  apply store_get_entry_inv in Hget as [?|[? _]]; congruence.
Qed.

(** X13.  What the code keeps of the correspondence between entries and
    registrations.  In every reachable state, for the own properties of the
    store: an entry whose [expiryAt] is [null] or 0 has no pending
    registration, and an entry whose [expiryAt] is a non-zero timestamp has
    exactly one, the pair (expiryAt, key) with the callback built for that
    entry.  Conversely every pending registration (timestamp, key) belongs
    to the entry that the lookup [this.cacheStore[key]] yields (an own
    property, or the prototype for the key [__proto__]), whose [expiryAt] is
    that timestamp.  Every operation (put, get, remove, dispose, a tick)
    keeps it so: if the key still has an own entry afterwards, its
    registrations are those of that entry, and if the own entry is gone, so
    are the key's registrations.  Entries with [expiryAt] 0, and an entry
    installed as the prototype, are not covered: see the two lemmas on C1
    below. *)
Theorem stored_entries_match_registrations s :
  reachable s →
  (∀ k e, own (cacheStore s) !! k = Some e → pending k s = scheduled k e) ∧
  (∀ ts k cb,
     Expirer.index (cacheExpirer s) !! (ts, k) = Some cb →
     ∃ e, store_get (cacheStore s) k = SEntry e ∧
          expiryAt e = Some ts ∧ cb = OnExpire k e) ∧
  (∀ o k e, own (cacheStore s) !! k = Some e →
     match own (cacheStore (exec o s)) !! k with
     | Some e' => pending k (exec o s) = scheduled k e'
     | None => pending k (exec o s) = ∅
     end).
Proof.
  intros Hs. pose proof (reachable_consistent _ Hs) as Hc. split_and!.
  - intros k e. by apply pending_stored.
  - intros ts k cb Hreg. by destruct (pending_live _ Hc _ _ _ Hreg) as [_ ?].
  - intros o k e Ho.
    pose proof (consistent_exec o _ Hc) as Hc'.
    destruct (own (cacheStore (exec o s)) !! k) as [e'|] eqn:Ho'.
    + by apply pending_stored.
    + apply pending_gone; [done..|]. intros ->.
      by rewrite (proto_not_own _ Hc) in Ho.
Qed.

Lemma stored_entries_match_registrations_witness :
  let k := "a"%string in
  let e := Entry (VNum 1) 0 (Some 100) in
  let s := exec (Put 0 (Some k) (Some (VNum 1)) (Some (TNum 100)))
                (create (Options None None)) in
  reachable s ∧
  own (cacheStore s) !! k = Some e ∧
  pending k s = {[ (100, k) := OnExpire k e ]} ∧
  pending k (exec (Remove k None) s) = ∅ ∧
  pending k (exec (Tick 100) s) = ∅ ∧
  pending k (exec (Put 50 (Some k) None (Some (TBool false))) s) = ∅.
Proof.
  intros k e s.
  assert (reachable s) as Hs by apply reachable_exec, reachable_create.
  assert (own (cacheStore s) !! k = Some e) as Ho by reflexivity.
  destruct (stored_entries_match_registrations s Hs) as (Hnow & _ & Hnext).
  split_and!; [exact Hs | exact Ho | exact (Hnow k e Ho)
              | exact (Hnext (Remove k None) k e Ho)
              | exact (Hnext (Tick 100) k e Ho)
              | exact (Hnext (Put 50 (Some k) None (Some (TBool false))) k e Ho)].
Defined.

(** C1 fails on the code.  A duration that cancels the clock gives the
    entry the timestamp 0 as [expiryAt]; it is set (not [null]), yet [put],
    which tests [if (expiryAt)], registers nothing: a live entry with
    [expiryAt] set and no pending registration. *)
Lemma zero_deadline_has_no_registration :
  let s := exec (Put 1700000000000 (Some "k"%string) (Some (VNum 1))
                     (Some (TNum (-1700000000000))))
                (create (Options None None)) in
  reachable s ∧
  ∃ e, own (cacheStore s) !! "k"%string = Some e ∧
       expiryAt e = Some 0 ∧ pending "k" s = ∅.
Proof.
  split; [apply reachable_exec, reachable_create|].
  eexists. split_and!; [vm_compute; reflexivity | reflexivity |].
  apply map_eq. intros r. by vm_compute.
Qed.

(** The sibling case of the lemma above: a duration one millisecond longer
    gives the timestamp 1, the entry is registered, and the next tick evicts
    it. *)
Lemma negative_deadline_is_registered :
  let k := "k"%string in
  let e := Entry (VNum 1) 1700000000000 (Some 1) in
  let s := exec (Put 1700000000000 (Some k) (Some (VNum 1))
                     (Some (TNum (-1699999999999))))
                (create (Options None None)) in
  own (cacheStore s) !! k = Some e ∧
  Expirer.index (cacheExpirer s) !! (1, k) = Some (OnExpire k e) ∧
  own (cacheStore (exec (Tick 1700000000000) s)) !! k = None ∧
  events_about FC_EXPIRY k (exec (Tick 1700000000000) s) =
    [Emit FC_EXPIRY (KeyData k (SEntry e))].
Proof. by vm_compute. Qed.

(** C1 also fails on the key [__proto__]: after [put("__proto__", 1, 100)]
    and [remove("__proto__")] the instance is live, [get("__proto__")] still
    returns the entry, whose [expiryAt] is 100, and no registration is
    pending: [remove] has cancelled the registration, but [delete] has
    removed nothing. *)
Lemma proto_entry_outlives_its_registration :
  let k := "__proto__"%string in
  let e := Entry (VNum 1) 0 (Some 100) in
  let s := execs [Put 0 (Some k) (Some (VNum 1)) (Some (TNum 100));
                  Remove k None]
                 (create (Options None None)) in
  reachable s ∧ instanceDisposed s = false ∧
  (remove k None
     (exec (Put 0 (Some k) (Some (VNum 1)) (Some (TNum 100)))
           (create (Options None None)))).1 = Returned true ∧
  (get (Some k) s).1 = Returned (SEntry e) ∧
  expiryAt e = Some 100 ∧
  pending k s = ∅.
Proof.
  split; [apply reachable_execs, reachable_create|].
  split_and!; [reflexivity | reflexivity | reflexivity | reflexivity |].
  apply map_eq. intros r. by vm_compute.
Qed.

(** ** Operations that leave a key alone *)

Lemma emitted_cleared k s : emitted (cleared k s) = emitted s.
Proof. unfold cleared. by destruct (slot_truthy _). Qed.

Lemma store_get_cleared_ne k k' s :
  k' ≠ k →
  store_get (cacheStore (cleared k s)) k' = store_get (cacheStore s) k'.
Proof.
  intros Hne. unfold cleared. destruct (slot_truthy _); [|done].
  cbn. by rewrite store_get_delete_ne.
Qed.

(** An operation that does not touch [k] keeps the entry of [k] and emits no
    [FC_EXPIRY] about it, provided a tick comes before the entry's deadline. *)
Lemma spared o k e s :
  consistent s →
  store_get (cacheStore s) k = SEntry e →
  touches k o = false →
  (∀ now ts, o = Tick now → expiryAt e = Some ts → ts ≠ 0 → now < ts) →
  store_get (cacheStore (exec o s)) k = SEntry e ∧
  events_about FC_EXPIRY k (exec o s) = events_about FC_EXPIRY k s.
Proof.
  intros Hc Hget Ht Hearly. destruct o as [now key v t | key | key b | | now];
    cbn [exec touches] in *.
  - apply String.eqb_neq in Ht.
    rewrite put_unfold. destruct (instanceDisposed s); [done|]. cbn. split.
    + apply store_get_set_entry_ne; [done|]. by rewrite store_get_cleared_ne.
    + unfold events_about; cbn. rewrite filter_about_snoc by done.
      by rewrite emitted_cleared.
  - rewrite get_unfold. destruct (instanceDisposed s); [done|]. cbn.
    destruct (slot_truthy _); [|done]. split; [done|].
    unfold events_about; cbn. by rewrite filter_about_snoc.
  - apply String.eqb_neq in Ht.
    rewrite remove_unfold. destruct (instanceDisposed s); [done|].
    destruct (slot_truthy _); [|done]. cbn. split.
    + by rewrite store_get_delete_ne.
    + unfold events_about; cbn. destruct (default false b); [|done].
      by rewrite filter_about_snoc.
  - done.
  - rewrite tick_unfold.
    destruct (Expirer.running (cacheExpirer s)) eqn:Hrun; [|done].
    pose proof (running_live s Hc Hrun) as Hd.
    destruct (forEach_invariant
      (λ s', consistent s' ∧ instanceDisposed s' = false ∧
             store_get (cacheStore s') k = SEntry e ∧
             events_about FC_EXPIRY k s' = events_about FC_EXPIRY k s)
      (λ r, r.1 ≤ now) fire
      (Expirer.due now (cacheExpirer s)) s) as (s' & -> & _ & _ & ? & ?);
      [| apply due_spec | done | done].
    intros r s1 Hr (Hc1 & Hd1 & Hg1 & He1).
    destruct (fire_step r s1 Hc1 Hd1) as (s2 & Hf & Hc2 & Hd2 & Hkeep).
    destruct (Hkeep k e Hg1) as [Hg2 He2].
    { intros ts Hexp Hts ->. specialize (Hearly now ts eq_refl Hexp Hts).
      cbn in Hr. lia. }
    exists tt, s2. split_and!; try done. congruence.
Qed.



Lemma spared_run os k e s :
  consistent s →
  store_get (cacheStore s) k = SEntry e →
  Forall (leaves_alone k (expiryAt e)) os →
  store_get (cacheStore (execs os s)) k = SEntry e ∧
  events_about FC_EXPIRY k (execs os s) = events_about FC_EXPIRY k s.
Proof.
  intros Hc Hget Hos. revert s Hc Hget.
  induction Hos as [|o os [Ht Hearly] _ IH]; intros s Hc Hget; [done|].
  cbn. destruct (spared o k e s Hc Hget Ht) as [Hg1 He1]; [by eauto|].
  destruct (IH (exec o s)) as [Hg2 He2]; [by apply consistent_exec | done |].
  split; [exact Hg2 | exact (eq_trans He2 He1)].
Qed.

(** ** Re-inserting a key *)

Lemma pending_none k (s : cache) :
  (∀ ts, Expirer.index (cacheExpirer s) !! (ts, k) = None) → pending k s = ∅.
Proof.
  intros Hfree. apply map_eq. intros [ts k']. rewrite lookup_empty.
  apply map_lookup_filter_None. right. intros cb Hreg. cbn. intros ->.
  by rewrite Hfree in Hreg.
Qed.

Lemma pending_installed k e s :
  (∀ ts, Expirer.index (cacheExpirer s) !! (ts, k) = None) →
  pending k (installed k e s) = scheduled k e.
Proof.
  intros Hfree. pose proof (pending_none k s Hfree) as Hnone.
  unfold pending, installed, scheduled in *. cbn.
  destruct (expiryAt e) as [ts|]; [|done].
  destruct (ts =? 0); cbn; [done|].
  rewrite map_filter_insert_True by done. rewrite Hnone. apply insert_empty.
Qed.


Lemma put_live_unfold now k v expiryIn s :
  instanceDisposed s = false →
  put now (Some k) v expiryIn s =
    (Returned (new_entry now v (effective_ttl expiryIn s)),
     installed k (new_entry now v (effective_ttl expiryIn s)) (cleared k s)).
Proof. intros Hd. by rewrite put_unfold, Hd. Qed.

Lemma put_installs now k v expiryIn s :
  consistent s → instanceDisposed s = false →
  let e := new_entry now v (effective_ttl expiryIn s) in
  let s' := exec (Put now (Some k) v expiryIn) s in
  store_get (cacheStore s') k = SEntry e ∧ pending k s' = scheduled k e ∧
  instanceDisposed s' = false.
Proof.
  intros Hc Hd e s'. subst s'. cbn [exec]. rewrite put_live_unfold by done. cbn.
  split_and!.
  - apply store_get_set_eq.
  - apply pending_installed. intros ts. by apply no_pending_cleared.
  - unfold cleared. by destruct (slot_truthy _).
Qed.





(** ** Entries without expiry *)

Lemma index_cleared_subseteq k s :
  Expirer.index (cacheExpirer (cleared k s)) ⊆ Expirer.index (cacheExpirer s).
Proof.
  unfold cleared. destruct (slot_truthy _); [|done].
  apply map_subseteq_spec. intros r cb. cbn. apply index_remove_subset.
Qed.

(** C3.  On a live instance, [put] with a falsy TTL (the argument itself:
    [0], [false], [null]; or, the argument being absent, the configured
    default) stores an entry whose [expiryAt] is [null] and adds no
    registration to the expirer: the key has no pending registration and the
    index has not grown.  The entry therefore stays whatever time passes:
    after any run of ticks (at any times), gets, and puts and removes of
    other keys, it is still the entry of its key and no [FC_EXPIRY] was
    emitted about the key; only an operation on the key itself or [dispose]
    ends it.  With a truthy TTL the stored entry has
    [expiryAt = now + ttl], the operands and the sum being safe integers. *)
Theorem falsy_ttl_entry_never_expires s now k v expiryIn :
  reachable s → instanceDisposed s = false →
  ∃ e s',
    put now (Some k) v expiryIn s = (Returned e, s') ∧
    store_get (cacheStore s') k = SEntry e ∧
    value e = default (VStr "") v ∧ time e = now ∧
    (∀ t, effective_ttl expiryIn s = Some t → ttl_truthy t = true →
          safe now → safe (ttl_number t) → safe (now + ttl_number t) →
          expiryAt e = Some (now + ttl_number t)) ∧
    (option_ttl_truthy (effective_ttl expiryIn s) = false →
       expiryAt e = None ∧
       pending k s' = ∅ ∧
       Expirer.index (cacheExpirer s') ⊆ Expirer.index (cacheExpirer s) ∧
       ∀ os, Forall (λ o, touches k o = false) os →
             store_get (cacheStore (execs os s')) k = SEntry e ∧
             events_about FC_EXPIRY k (execs os s') = events_about FC_EXPIRY k s').
Proof.
  intros Hs Hd. pose proof (reachable_consistent _ Hs) as Hc.
  destruct (put_installs now k v expiryIn s Hc Hd) as (Hget & Hpend & _).
  pose proof (consistent_exec (Put now (Some k) v expiryIn) s Hc) as Hc'.
  revert Hget Hpend Hc'. cbn [exec]. rewrite put_live_unfold by done. cbn [snd].
  set (e := new_entry now v (effective_ttl expiryIn s)).
  set (s' := installed k e (cleared k s)).
  intros Hget Hpend Hc'. exists e, s'. split_and!; try done.
  - intros t Ht Htrue _ _ _. unfold e, new_entry. rewrite Ht, Htrue. done.
  - intros Hfalsy.
    assert (expiryAt e = None) as Hexp.
    { unfold e, new_entry. destruct (effective_ttl expiryIn s) as [t|]; [|done].
      cbn in Hfalsy. by rewrite Hfalsy. }
    split_and!.
    + done.
    + rewrite Hpend. unfold scheduled. by rewrite Hexp.
    + unfold s', installed. cbn [cacheExpirer]. rewrite Hexp.
      apply index_cleared_subseteq.
    + intros os Hos. apply spared_run; [done..|].
      rewrite Hexp. eapply Forall_impl; [exact Hos|].
      intros o Ht. split; [done | intros ?? _ [=]].
Qed.

Lemma falsy_ttl_entry_never_expires_witness :
  let s := create (Options None None) in
  let off := create (Options (Some (Some (TBool false))) None) in
  let k := "k"%string in
  let os := [Tick 100; Get (Some k); Tick 1000000000000;
             Put 7 (Some "other"%string) None None; Tick 1000000000000000] in
  (reachable s ∧ instanceDisposed s = false) ∧
  (reachable off ∧ instanceDisposed off = false) ∧
  (∃ e s',
     put 5 (Some k) (Some (VNum 1)) (Some (TNum 0)) s = (Returned e, s') ∧
     expiryAt e = None ∧ pending k s' = ∅ ∧
     store_get (cacheStore (execs os s')) k = SEntry e) ∧
  (∃ e s',
     put 5 (Some k) (Some (VNum 1)) None off = (Returned e, s') ∧
     expiryAt e = None ∧ pending k s' = ∅ ∧
     store_get (cacheStore (execs os s')) k = SEntry e) ∧
  (safe 5 ∧ safe 60000 ∧ safe (5 + 60000)) ∧
  (∃ e s',
     put 5 (Some k) (Some (VNum 1)) None s = (Returned e, s') ∧
     expiryAt e = Some (5 + 60000)).
Proof.
  intros s off k os.
  assert (reachable s) as Hs by apply reachable_create.
  assert (reachable off) as Hoff by apply reachable_create.
  assert (Forall (λ o, touches k o = false) os) as Hos
    by (repeat apply Forall_cons_2; try apply Forall_nil_2; reflexivity).
  destruct (falsy_ttl_entry_never_expires s 5 k (Some (VNum 1)) (Some (TNum 0))
              Hs eq_refl) as (e1 & s1 & Hput1 & _ & _ & _ & _ & Hfalsy1).
  destruct (Hfalsy1 eq_refl) as (Hexp1 & Hpend1 & _ & Hrun1).
  destruct (falsy_ttl_entry_never_expires off 5 k (Some (VNum 1)) None
              Hoff eq_refl) as (e2 & s2 & Hput2 & _ & _ & _ & _ & Hfalsy2).
  destruct (Hfalsy2 eq_refl) as (Hexp2 & Hpend2 & _ & Hrun2).
  destruct (falsy_ttl_entry_never_expires s 5 k (Some (VNum 1)) None
              Hs eq_refl) as (e3 & s3 & Hput3 & _ & _ & _ & Htruthy3 & _).
  assert (safe 5) as Hnow by (unfold safe; lia).
  assert (safe 60000) as Httl by (unfold safe; lia).
  assert (safe (5 + 60000)) as Hsum by (unfold safe; lia).
  split_and!; [exact Hs | reflexivity | exact Hoff | reflexivity | |
              | exact Hnow | exact Httl | exact Hsum |].
  - exists e1, s1. split_and!; [exact Hput1 | exact Hexp1 | exact Hpend1
                               | exact (proj1 (Hrun1 os Hos))].
  - exists e2, s2. split_and!; [exact Hput2 | exact Hexp2 | exact Hpend2
                               | exact (proj1 (Hrun2 os Hos))].
  - exists e3, s3. split; [exact Hput3|].
    exact (Htruthy3 (TNum 60000) eq_refl eq_refl Hnow Httl Hsum).
Defined.

(** ** Disposal *)

Lemma disposed_throws s :
  instanceDisposed s = true →
  (∀ now key v expiryIn, put now key v expiryIn s = (Thrown disposed_message, s)) ∧
  (∀ key, get key s = (Thrown disposed_message, s)) ∧
  (∀ key b, remove key b s = (Thrown disposed_message, s)) ∧
  dispose s = (Thrown disposed_message, s).
Proof.
  intros Hd. split_and!; intros.
  - by rewrite put_unfold, Hd.
  - by rewrite get_unfold, Hd.
  - by rewrite remove_unfold, Hd.
  - by rewrite dispose_unfold, Hd.
Qed.

Lemma disposed_inert s os :
  instanceDisposed s = true → Expirer.running (cacheExpirer s) = false →
  execs os s = s.
Proof.
  intros Hd Hrun. destruct (disposed_throws s Hd) as (Hput & Hget & Hrem & Hdis).
  induction os as [|o os IH]; [done|].
  assert (exec o s = s) as Ho.
  { destruct o; cbn [exec].
    - by rewrite Hput.
    - by rewrite Hget.
    - by rewrite Hrem.
    - by rewrite Hdis.
    - by rewrite tick_unfold, Hrun. }
  cbn. rewrite Ho. exact IH.
Qed.

Lemma disposed_calls_inert s calls :
  instanceDisposed s = true → Forall (λ o, is_call o = true) calls →
  execs calls s = s.
Proof.
  intros Hd Hcalls. destruct (disposed_throws s Hd) as (Hput & Hget & Hrem & Hdis).
  induction Hcalls as [|o os Ho _ IH]; [done|].
  assert (exec o s = s) as Hsame.
  { destruct o; cbn [exec]; [by rewrite Hput | by rewrite Hget | by rewrite Hrem
                             | by rewrite Hdis | discriminate]. }
  cbn. rewrite Hsame. exact IH.
Qed.

(** C5.  Once [dispose()] has completed, every call of [put], [get],
    [remove] or [dispose] throws the use-after-dispose error, and the state
    at the throw is the state before the call: store, expiry registrations,
    disposed flag and event log are untouched.  This holds however many
    calls were made since the disposal. *)
Theorem use_after_dispose_fails_fast s0 b calls :
  (dispose s0).1 = Returned b →
  Forall (λ o, is_call o = true) calls →
  let s := execs calls (dispose s0).2 in
  s = (dispose s0).2 ∧
  instanceDisposed s = true ∧
  (∀ now key v expiryIn, put now key v expiryIn s = (Thrown disposed_message, s)) ∧
  (∀ key, get key s = (Thrown disposed_message, s)) ∧
  (∀ key shouldEmit, remove key shouldEmit s = (Thrown disposed_message, s)) ∧
  dispose s = (Thrown disposed_message, s).
Proof.
  intros Hret Hcalls.
  assert (instanceDisposed (dispose s0).2 = true) as Hd.
  { revert Hret. rewrite dispose_unfold.
    by destruct (instanceDisposed s0); [discriminate|]. }
  assert (execs calls (dispose s0).2 = (dispose s0).2) as ->.
  { by apply disposed_calls_inert. }
  cbn zeta. split; [done|]. split; [done|]. by apply disposed_throws.
Qed.

Lemma use_after_dispose_fails_fast_witness :
  let s0 := exec (Put 0 (Some "a"%string) (Some (VNum 1)) (Some (TNum 100)))
                 (create (Options None None)) in
  let calls := [Get (Some "a"%string); Remove "a" None; Dispose] in
  let s := execs calls (dispose s0).2 in
  ((dispose s0).1 = Returned true ∧ Forall (λ o, is_call o = true) calls) ∧
  put 1 (Some "b"%string) (Some (VNum 2)) None s = (Thrown disposed_message, s) ∧
  get (Some "a"%string) s = (Thrown disposed_message, s) ∧
  remove "a" (Some true) s = (Thrown disposed_message, s) ∧
  dispose s = (Thrown disposed_message, s).
Proof.
  intros s0 calls s.
  assert ((dispose s0).1 = Returned true) as Hret by (vm_compute; reflexivity).
  assert (Forall (λ o, is_call o = true) calls) as Hcalls
    by (repeat apply Forall_cons_2; try apply Forall_nil_2; reflexivity).
  destruct (use_after_dispose_fails_fast s0 true calls Hret Hcalls)
    as (_ & _ & Hput & Hget & Hrem & Hagain).
  split_and!; [exact Hret | exact Hcalls | apply Hput | apply Hget | apply Hrem
              | exact Hagain].
Defined.

(** C6 fails on the key [__proto__].  After [put("__proto__", 1, 100)],
    [dispose()] returns [true], emits [FC_CLEAR] and leaves no own key; but
    [Object.keys] never listed [__proto__], so the entry was not removed: it
    is still the prototype of the store, found under [__proto__], and its
    value is found under "value". *)
Theorem dispose_leaves_the_prototype_entry :
  let k := "__proto__"%string in
  let e := Entry (VNum 1) 0 (Some 100) in
  let s := exec (Put 0 (Some k) (Some (VNum 1)) (Some (TNum 100)))
                (create (Options None None)) in
  let s' := (dispose s).2 in
  (put 0 (Some k) (Some (VNum 1)) (Some (TNum 100))
       (create (Options None None))).1 = Returned e ∧
  (dispose s).1 = Returned true ∧
  instanceDisposed s' = true ∧
  emitted s' = [Emit FC_ADD (KeyData k (SEntry e)); Emit FC_CLEAR NoData] ∧
  Object_keys (cacheStore s') = [] ∧
  store_get (cacheStore s') k = SEntry e ∧
  store_get (cacheStore s') "value" = SValue (VNum 1).
Proof. by vm_compute. Qed.

(** X14.  What [dispose()] does achieve.  On a live instance it returns
    [true]; it removes every own key of the store without emitting
    [FC_REMOVE] (the store has no own property left), emits exactly one
    event, [FC_CLEAR] with the empty payload, disposes the expirer (index
    released, scan stopped) and sets the disposed flag, for good: afterwards
    nothing changes the instance any more and every method throws the
    use-after-dispose error. *)
Theorem dispose_clears_and_disables s :
  instanceDisposed s = false →
  ∃ s',
    dispose s = (Returned true, s') ∧
    own (cacheStore s') = ∅ ∧
    Object_keys (cacheStore s') = [] ∧
    emitted s' = emitted s ++ [Emit FC_CLEAR NoData] ∧
    cacheExpirer s' = Expirer.dispose (cacheExpirer s) ∧
    Expirer.index (cacheExpirer s') = ∅ ∧
    Expirer.running (cacheExpirer s') = false ∧
    instanceDisposed s' = true ∧
    (∀ os, execs os s' = s') ∧
    (∀ now key v expiryIn, put now key v expiryIn s' = (Thrown disposed_message, s')) ∧
    (∀ key, get key s' = (Thrown disposed_message, s')) ∧
    (∀ key shouldEmit, remove key shouldEmit s' = (Thrown disposed_message, s')) ∧
    dispose s' = (Thrown disposed_message, s').
Proof.
  intros Hd. rewrite dispose_unfold, Hd.
  remember (Cache _ _ _ _ _) as s' eqn:Es'. exists s'.
  assert (instanceDisposed s' = true) as Hd' by by subst s'.
  assert (Expirer.running (cacheExpirer s') = false) as Hrun' by by subst s'.
  destruct (disposed_throws s' Hd') as (Hput & Hget & Hrem & Hdis).
  split_and!;
    [ done | by subst s' | by subst s' | by subst s' | by subst s'
    | by subst s' | done | done
    | intros os; by apply disposed_inert
    | done | done | done | done ].
Qed.

Lemma dispose_clears_and_disables_witness :
  let s := execs [Put 0 (Some "a"%string) (Some (VNum 1)) (Some (TNum 100));
                  Put 0 (Some "b"%string) (Some (VNum 2)) (Some (TBool false))]
                 (create (Options None None)) in
  instanceDisposed s = false ∧
  ∃ s',
    dispose s = (Returned true, s') ∧
    own (cacheStore s') = ∅ ∧
    emitted s' = emitted s ++ [Emit FC_CLEAR NoData] ∧
    Expirer.index (cacheExpirer s') = ∅ ∧
    instanceDisposed s' = true ∧
    get (Some "a"%string) s' = (Thrown disposed_message, s').
Proof.
  intros s. split; [reflexivity|].
  destruct (dispose_clears_and_disables s eq_refl)
    as (s' & H1 & H2 & _ & H3 & _ & H4 & _ & H5 & _ & _ & H6 & _).
  exists s'. split_and!; [exact H1 | exact H2 | exact H3 | exact H4 | exact H5 | apply H6].
Defined.

(** ** What [put] returns and announces *)

(** C9.  On a live instance, [put(k, v, ttl)] returns the entry it has
    installed in the store under [k]: the entry holds [v], the time of the
    insertion and the computed [expiryAt] ([null] for a falsy TTL, a number
    for a truthy one: [now + ttl], the operands and the sum being safe
    integers), and looking [k] up in the store afterwards yields that very
    entry.  The call emits exactly one event, [FC_ADD] with payload
    [{ key, data }] for that key and entry, before it returns. *)
Theorem put_returns_the_installed_entry s now k v expiryIn :
  instanceDisposed s = false →
  ∃ e s',
    put now (Some k) (Some v) expiryIn s = (Returned e, s') ∧
    value e = v ∧ time e = now ∧
    (option_ttl_truthy (effective_ttl expiryIn s) = false → expiryAt e = None) ∧
    (∀ t, effective_ttl expiryIn s = Some t → ttl_truthy t = true →
          is_Some (expiryAt e) ∧
          (safe now → safe (ttl_number t) → safe (now + ttl_number t) →
           expiryAt e = Some (now + ttl_number t))) ∧
    store_get (cacheStore s') k = SEntry e ∧
    emitted s' = emitted s ++ [Emit FC_ADD (KeyData k (SEntry e))].
Proof.
  intros Hd. rewrite put_live_unfold by done. eexists _, _.
  split; [reflexivity|]. cbn [installed cacheStore emitted].
  split_and!; try done.
  - unfold new_entry. cbn. destruct (effective_ttl expiryIn s) as [t|]; [|done].
    cbn. by intros ->.
  - intros t Ht Htrue. unfold new_entry. cbn. rewrite Ht, Htrue. by split.
  - apply store_get_set_eq.
  - by rewrite emitted_cleared.
Qed.

Lemma put_returns_the_installed_entry_witness :
  let s := create (Options None None) in
  (instanceDisposed s = false ∧
   safe 1000 ∧ safe 60000 ∧ safe (1000 + 60000)) ∧
  ∃ e s',
    put 1000 (Some "k"%string) (Some (VStr "v")) None s = (Returned e, s') ∧
    e = Entry (VStr "v") 1000 (Some 61000) ∧
    store_get (cacheStore s') "k" = SEntry e ∧
    emitted s' = emitted s ++ [Emit FC_ADD (KeyData "k" (SEntry e))].
Proof.
  intros s.
  assert (safe 1000) as Hnow by (unfold safe; lia).
  assert (safe 60000) as Httl by (unfold safe; lia).
  assert (safe (1000 + 60000)) as Hsum by (unfold safe; lia).
  split; [split_and!; [reflexivity | exact Hnow | exact Httl | exact Hsum]|].
  destruct (put_returns_the_installed_entry s 1000 "k" (VStr "v") None eq_refl)
    as ([v t x] & s' & Hput & Hv & Ht & _ & Hx & Hget & Hev).
  destruct (Hx (TNum 60000) eq_refl eq_refl) as [_ Hx'].
  specialize (Hx' Hnow Httl Hsum).
  exists (Entry v t x), s'. cbn in Hv, Ht, Hx'.
  split_and!; [exact Hput | by rewrite Hv, Ht, Hx' | exact Hget | exact Hev].
Defined.

(** ** Keys inherited from [Object.prototype] *)

Lemma store_get_inherited st k :
  k ∈ object_prototype_methods → own st !! k = None →
  store_get st k = SBuiltin k.
Proof.
  intros Hk Ho. unfold store_get. rewrite Ho.
  unfold object_prototype_methods in Hk.
  repeat (apply elem_of_cons in Hk as [->|Hk]);
    [by destruct (proto st).. | by apply elem_of_nil in Hk].
Qed.

(** C10.  Presence of a key is a truthy property lookup on a plain object.
    For a key that names a method of [Object.prototype] ("constructor",
    "toString", ...) and has no entry of its own in the store, for instance
    because it was never put, [get] does not return [null]: it returns the
    inherited value and emits [FC_GET]; and [remove] takes the key for
    present: it returns [true] (emitting [FC_REMOVE] when asked to notify)
    and leaves the store as it is, so the key looks present still. *)
Theorem inherited_keys_count_as_present s k :
  instanceDisposed s = false →
  k ∈ object_prototype_methods →
  own (cacheStore s) !! k = None →
  get (Some k) s =
    (Returned (SBuiltin k), with_event (Emit FC_GET (KeyData k (SBuiltin k))) s) ∧
  SBuiltin k ≠ null ∧
  ∀ shouldEmit,
    let s' := (remove k shouldEmit s).2 in
    (remove k shouldEmit s).1 = Returned true ∧
    emitted s' =
      (if default false shouldEmit
       then emitted s ++ [Emit FC_REMOVE (KeyData k (SBuiltin k))]
       else emitted s) ∧
    cacheStore s' = cacheStore s ∧
    store_get (cacheStore s') k = SBuiltin k.
Proof.
  intros Hd Hk Ho. pose proof (store_get_inherited _ _ Hk Ho) as Hget.
  split_and!.
  - by rewrite get_unfold, Hd; cbn; rewrite Hget.
  - done.
  - intros b. rewrite remove_unfold, Hd, Hget. cbn.
    rewrite store_delete_absent by done. by split_and!.
Qed.

Lemma inherited_keys_count_as_present_witness :
  let s := create (Options None None) in
  let k := "constructor"%string in
  (instanceDisposed s = false ∧ k ∈ object_prototype_methods ∧
   own (cacheStore s) !! k = None) ∧
  get (Some k) s =
    (Returned (SBuiltin k), with_event (Emit FC_GET (KeyData k (SBuiltin k))) s) ∧
  (remove k None s).1 = Returned true ∧
  get (Some "toString"%string) s =
    (Returned (SBuiltin "toString"),
     with_event (Emit FC_GET (KeyData "toString" (SBuiltin "toString"))) s).
Proof.
  intros s k.
  assert (k ∈ object_prototype_methods) as Hk
    by (apply (bool_decide_unpack _); vm_compute; exact I).
  assert ("toString"%string ∈ object_prototype_methods) as Hk'
    by (apply (bool_decide_unpack _); vm_compute; exact I).
  destruct (inherited_keys_count_as_present s k eq_refl Hk eq_refl) as (Hget & _ & Hrem).
  destruct (inherited_keys_count_as_present s "toString" eq_refl Hk' eq_refl)
    as (Hget' & _ & _).
  split_and!; [reflexivity | exact Hk | reflexivity | exact Hget
              | exact (proj1 (Hrem None)) | exact Hget'].
Defined.

(** ** Where inherited keys break the map reading of the store *)

(** What holds for every key: an eviction emits [FC_EXPIRY] and then
    [FC_REMOVE] for the entry captured by [put], and deletes the store slot;
    a later [get] returns [null] when nothing truthy is inherited under the
    key. *)
Lemma eviction_emits_expired_then_removed ts k cb s :
  consistent s → instanceDisposed s = false →
  Expirer.index (cacheExpirer s) !! (ts, k) = Some cb →
  ∃ e s',
    cb = OnExpire k e ∧
    fire (ts, k) s = (Returned tt, s') ∧
    emitted s' = emitted s ++ [Emit FC_EXPIRY (KeyData k (SEntry e));
                               Emit FC_REMOVE (KeyData k (SEntry e))] ∧
    own (cacheStore s') !! k = None ∧
    Expirer.index (cacheExpirer s') !! (ts, k) = None ∧
    (slot_truthy (store_get (cacheStore s') k) = false →
     get (Some k) s' = (Returned null, s')).
Proof.
  intros Hc Hd Hreg.
  destruct (fire_pending _ _ _ _ Hc Hd Hreg) as (e & Hget & Hexp & -> & Hfire).
  eexists e, _. split; [done|]. split; [exact Hfire|]. cbn. split_and!.
  - by rewrite <- app_assoc.
  - apply lookup_delete_eq.
  - rewrite Hexp. cbn. apply lookup_delete_eq.
  - intros Hfalsy. rewrite get_unfold. cbn. by rewrite Hd, Hfalsy.
Qed.

(** What holds for every key: [get] changes nothing but the event log. *)
Lemma get_changes_only_the_log key s :
  cacheStore (get key s).2 = cacheStore s ∧
  cacheExpirer (get key s).2 = cacheExpirer s ∧
  instanceDisposed (get key s).2 = instanceDisposed s ∧
  config (get key s).2 = config s.
Proof.
  rewrite get_unfold. destruct (instanceDisposed s) eqn:Hd; [done|].
  cbn. by destruct (slot_truthy _).
Qed.

(** What holds for every key: a [remove] that misses changes nothing, and
    after a [remove] that hits, a second one misses when nothing truthy is
    inherited under the key. *)
Lemma remove_hit_then_miss k b b' s :
  instanceDisposed s = false →
  slot_truthy (store_get (cacheStore s) k) = true →
  slot_truthy (store_get (store_delete (cacheStore s) k) k) = false →
  ∃ s', remove k b s = (Returned true, s') ∧
        remove k b' s' = (Returned false, s').
Proof.
  intros Hd Hhit Hmiss. rewrite remove_unfold, Hd, Hhit.
  eexists. split; [reflexivity|]. rewrite remove_unfold. cbn.
  by rewrite Hd, Hmiss.
Qed.

(** On a store whose prototype is still [Object.prototype], every key
    other than [__proto__] and the method names is plain. *)
Lemma plain_ordinary st k :
  proto st = None → k ∉ object_prototype_methods → k ≠ "__proto__"%string →
  plain st k.
Proof.
  intros Hp Hk Hne. unfold plain, store_get. cbn.
  rewrite lookup_delete_eq, Hp. cbn.
  destruct (String.eqb_spec k "__proto__"); [done|].
  unfold object_prototype_get. by rewrite bool_decide_eq_false_2.
Qed.

(** What holds for plain keys: [get] returns the live entry and emits
    [FC_GET] on a hit, returns [null] and emits nothing on a miss. *)
Lemma get_plain k s :
  instanceDisposed s = false → plain (cacheStore s) k →
  get (Some k) s =
    match own (cacheStore s) !! k with
    | Some e => (Returned (SEntry e), with_event (Emit FC_GET (KeyData k (SEntry e))) s)
    | None => (Returned null, s)
    end.
Proof.
  intros Hd Hplain. rewrite get_unfold, Hd. cbn.
  destruct (own (cacheStore s) !! k) as [e|] eqn:Ho.
  - by rewrite (store_get_own _ _ _ Ho).
  - unfold plain in Hplain. rewrite store_delete_absent in Hplain by done.
    by rewrite Hplain.
Qed.

(** What holds for plain keys: [remove] returns [true] exactly on a hit,
    [false] with the state unchanged on a miss, and after a hit the key is
    absent, so that a second [remove] misses. *)
Lemma remove_plain k b s :
  instanceDisposed s = false → plain (cacheStore s) k →
  remove k b s =
    match own (cacheStore s) !! k with
    | Some e => (Returned true, removed k (SEntry e) (default false b) s)
    | None => (Returned false, s)
    end ∧
  ∀ b', remove k b' (remove k b s).2 = (Returned false, (remove k b s).2).
Proof.
  intros Hd Hplain. rewrite remove_unfold, Hd.
  destruct (own (cacheStore s) !! k) as [e|] eqn:Ho.
  - rewrite (store_get_own _ _ _ Ho). cbn. split; [done|].
    intros b'. rewrite remove_unfold. cbn. by rewrite Hd, Hplain.
  - unfold plain in Hplain. rewrite store_delete_absent in Hplain by done.
    rewrite Hplain. split; [done|]. intros b'. cbn.
    by rewrite remove_unfold, Hd, Hplain.
Qed.

(** C4 fails on a key inherited from [Object.prototype].  After
    [put("toString", 1, 10)] at time 0, the callback registered for the key
    is run: the events are added, expired, removed, in this order, and the
    key has no store slot; yet [get("toString")] returns the inherited
    function, not [null].  A tick at time 10 leads to the same state. *)
Theorem evicted_inherited_key_is_still_found :
  let k := "toString"%string in
  let e := Entry (VNum 1) 0 (Some 10) in
  let s1 := exec (Put 0 (Some k) (Some (VNum 1)) (Some (TNum 10)))
                 (create (Options None None)) in
  let s2 := (onExpire (OnExpire k e) s1).2 in
  Expirer.index (cacheExpirer s1) !! (10, k) = Some (OnExpire k e) ∧
  emitted s2 = [Emit FC_ADD (KeyData k (SEntry e));
                Emit FC_EXPIRY (KeyData k (SEntry e));
                Emit FC_REMOVE (KeyData k (SEntry e))] ∧
  own (cacheStore s2) !! k = None ∧
  (get (Some k) s2).1 = Returned (SBuiltin k) ∧
  (get (Some k) s2).1 ≠ Returned null ∧
  exec (Tick 10) s1 = s2.
Proof. by vm_compute. Qed.

(** C7 fails on a key inherited from [Object.prototype].  On a fresh
    instance, where "constructor" has no entry, [remove("constructor", true)]
    returns [true], and so does a second call; each emits [FC_REMOVE]. *)
Theorem remove_of_inherited_key_repeats :
  let k := "constructor"%string in
  let s := create (Options None None) in
  let s1 := (remove k (Some true) s).2 in
  let s2 := (remove k (Some true) s1).2 in
  own (cacheStore s) !! k = None ∧
  (remove k (Some true) s).1 = Returned true ∧
  (remove k (Some true) s1).1 = Returned true ∧
  events_about FC_REMOVE k s2 =
    [Emit FC_REMOVE (KeyData k (SBuiltin k)); Emit FC_REMOVE (KeyData k (SBuiltin k))].
Proof. by vm_compute. Qed.

(** C8 fails on a key inherited from [Object.prototype].  On a fresh
    instance, where "constructor" has no entry, [get("constructor")] does not
    return [null]: it returns the inherited function and emits [FC_GET]. *)
Theorem get_of_inherited_key_hits :
  let k := "constructor"%string in
  let s := create (Options None None) in
  own (cacheStore s) !! k = None ∧
  (get (Some k) s).1 = Returned (SBuiltin k) ∧
  (get (Some k) s).1 ≠ Returned null ∧
  emitted (get (Some k) s).2 = [Emit FC_GET (KeyData k (SBuiltin k))].
Proof. by vm_compute. Qed.

(** * Further properties of the methods *)

(** ** What no operation changes *)

Lemma forEach_snd_preserves {A B} (P : cache → Prop) (f : A → M B) l s :
  (∀ x s, P s → P (f x s).2) → P s → P (forEach l f s).2.
Proof.
  intros Hf. revert s. induction l as [|x l IH]; intros s HP; [done|].
  cbn. unfold bind. specialize (Hf x s HP).
  destruct (f x s) as [[b|msg] s1]; cbn in *; [by apply IH | done].
Qed.

Lemma remove_frame key b s :
  config (remove key b s).2 = config s ∧
  instanceDisposed (remove key b s).2 = instanceDisposed s ∧
  proto (cacheStore (remove key b s).2) = proto (cacheStore s).
Proof.
  rewrite remove_unfold. destruct (instanceDisposed s) eqn:Hd; [done|].
  by destruct (slot_truthy _).
Qed.

Lemma onExpire_snd cb s :
  (onExpire cb s).2 =
  (remove (cb_key cb) (Some true)
     (with_event (Emit FC_EXPIRY (KeyData (cb_key cb) (SEntry (cb_target cb)))) s)).2.
Proof.
  unfold onExpire, bind, emit, modify.
  by destruct (remove _ _ _) as [[?|?] ?].
Qed.

Lemma fire_frame r s :
  config (fire r s).2 = config s ∧
  instanceDisposed (fire r s).2 = instanceDisposed s ∧
  proto (cacheStore (fire r s).2) = proto (cacheStore s).
Proof.
  rewrite fire_unfold. destruct (_ !! r) as [cb|]; [|done].
  rewrite onExpire_snd.
  destruct (remove_frame (cb_key cb) (Some true)
    (with_event (Emit FC_EXPIRY (KeyData (cb_key cb) (SEntry (cb_target cb))))
       (with_expirer (Expirer.take r) s))) as (-> & -> & ->).
  done.
Qed.

Lemma tick_frame now s :
  config (tick now s).2 = config s ∧
  instanceDisposed (tick now s).2 = instanceDisposed s ∧
  proto (cacheStore (tick now s).2) = proto (cacheStore s).
Proof.
  rewrite tick_unfold. destruct (Expirer.running _); [|done].
  apply (forEach_snd_preserves
    (λ s', config s' = config s ∧ instanceDisposed s' = instanceDisposed s ∧
           proto (cacheStore s') = proto (cacheStore s))); [|done].
  intros r s1 (H1 & H2 & H3). destruct (fire_frame r s1) as (-> & -> & ->). done.
Qed.

Lemma exec_config o s : config (exec o s) = config s.
Proof.
  destruct o; cbn [exec].
  - rewrite put_unfold. destruct (instanceDisposed s); [done|]. cbn.
    unfold cleared. by destruct (slot_truthy _).
  - rewrite get_unfold. destruct (instanceDisposed s); [done|]. cbn.
    by destruct (slot_truthy _).
  - apply remove_frame.
  - rewrite dispose_unfold. by destruct (instanceDisposed s).
  - apply tick_frame.
Qed.

Lemma execs_config os s : config (execs os s) = config s.
Proof.
  revert s. induction os as [|o os IH]; intros s; [done|].
  etrans; [exact (IH (exec o s)) | apply exec_config].
Qed.

(** X1.  The configuration is fixed by the constructor: after any run of
    calls and ticks, disposal included, [this.config] is the default
    configuration overridden by the options that were given.  While the
    instance is live, a [put] without TTL argument therefore gets no expiry
    when the configured default is falsy or undefined, and otherwise expires
    after the configured default, 60000 when none was given:
    [expiryAt = now + default], the operands and the sum being safe
    integers. *)
Theorem config_is_fixed_at_construction o os :
  let s := execs os (create o) in
  let d := default (Some (TNum 60000)) (opt_defaultCacheExpiryIn o) in
  config s = merge_config defaultConfig o ∧
  defaultCacheExpiryIn (config s) = d ∧
  ∀ now k v,
    instanceDisposed s = false →
    ∃ e s',
      put now k v None s = (Returned e, s') ∧
      (option_ttl_truthy d = false → expiryAt e = None) ∧
      (∀ t, d = Some t → ttl_truthy t = true →
            safe now → safe (ttl_number t) → safe (now + ttl_number t) →
            expiryAt e = Some (now + ttl_number t)).
Proof.
  intros s d.
  assert (config s = merge_config defaultConfig o) as Hc
    by (unfold s; by rewrite execs_config).
  split; [done|]. split; [by rewrite Hc|].
  intros now k v Hd.
  rewrite put_unfold, Hd. eexists _, _. split; [reflexivity|].
  unfold new_entry, effective_ttl. rewrite Hc. cbn [expiryAt].
  change (defaultCacheExpiryIn (merge_config defaultConfig o)) with d.
  split.
  - destruct d as [t|]; [|done]. cbn. by intros ->.
  - intros t -> Htrue _ _ _. by rewrite Htrue.
Qed.

Lemma config_is_fixed_at_construction_witness :
  let os := [Put 0 (Some "a"%string) None (Some (TNum 5)); Tick 7;
             Get (Some "a"%string); Remove "b" None] in
  let s := execs os (create (Options None None)) in
  let s' := execs os (create (Options (Some (Some (TNum 500))) (Some 10))) in
  let off := execs os (create (Options (Some None) None)) in
  let gone := execs (os ++ [Dispose; Get None])
                    (create (Options (Some (Some (TNum 500))) (Some 10))) in
  (instanceDisposed s = false ∧ instanceDisposed s' = false ∧
   instanceDisposed off = false ∧ instanceDisposed gone = true) ∧
  (safe 1000 ∧ safe 60000 ∧ safe (1000 + 60000) ∧
   safe 500 ∧ safe (1000 + 500)) ∧
  config gone = Config (Some (TNum 500)) 10 ∧
  (∃ e r, put 1000 (Some "k"%string) None None s = (Returned e, r) ∧
          expiryAt e = Some 61000) ∧
  (∃ e r, put 1000 (Some "k"%string) None None s' = (Returned e, r) ∧
          expiryAt e = Some 1500) ∧
  (∃ e r, put 1000 (Some "k"%string) None None off = (Returned e, r) ∧
          expiryAt e = None).
Proof.
  intros os s s' off gone.
  assert (safe 1000) as Hnow by (unfold safe; lia).
  assert (safe 60000) as H60 by (unfold safe; lia).
  assert (safe (1000 + 60000)) as Hsum60 by (unfold safe; lia).
  assert (safe 500) as H500 by (unfold safe; lia).
  assert (safe (1000 + 500)) as Hsum500 by (unfold safe; lia).
  destruct (config_is_fixed_at_construction (Options None None) os)
    as (_ & _ & Hput1).
  destruct (Hput1 1000 (Some "k"%string) None eq_refl) as (e1 & r1 & H1 & _ & E1).
  destruct (config_is_fixed_at_construction
              (Options (Some (Some (TNum 500))) (Some 10)) os)
    as (_ & _ & Hput2).
  destruct (Hput2 1000 (Some "k"%string) None eq_refl) as (e2 & r2 & H2 & _ & E2).
  destruct (config_is_fixed_at_construction (Options (Some None) None) os)
    as (_ & _ & Hput3).
  destruct (Hput3 1000 (Some "k"%string) None eq_refl) as (e3 & r3 & H3 & E3 & _).
  destruct (config_is_fixed_at_construction
              (Options (Some (Some (TNum 500))) (Some 10)) (os ++ [Dispose; Get None]))
    as (Hgone & _ & _).
  split_and!; [reflexivity | reflexivity | reflexivity | reflexivity
              | exact Hnow | exact H60 | exact Hsum60 | exact H500 | exact Hsum500
              | exact Hgone | | |].
  - exists e1, r1. split; [exact H1|].
    exact (E1 (TNum 60000) eq_refl eq_refl Hnow H60 Hsum60).
  - exists e2, r2. split; [exact H2|].
    exact (E2 (TNum 500) eq_refl eq_refl Hnow H500 Hsum500).
  - exists e3, r3. split; [exact H3 | exact (E3 eq_refl)].
Defined.

(** X2.  The disposed flag is set by [dispose] and by nothing else, and no
    operation clears it: after any operation the instance is disposed
    exactly if it was disposed before or the operation was [dispose]. *)
Theorem only_dispose_disposes o s :
  instanceDisposed (exec o s) =
  instanceDisposed s || match o with Dispose => true | _ => false end.
Proof.
  destruct o; cbn [exec]; rewrite ?orb_false_r.
  - rewrite put_unfold. destruct (instanceDisposed s) eqn:Hd; [done|]. cbn.
    unfold cleared. by destruct (slot_truthy _).
  - rewrite get_unfold. destruct (instanceDisposed s) eqn:Hd; [done|]. cbn.
    by destruct (slot_truthy _).
  - apply remove_frame.
  - rewrite dispose_unfold. by destruct (instanceDisposed s) eqn:Hd.
  - apply tick_frame.
Qed.

(** ** How the methods compose *)

Lemma disposed_cleared k s : instanceDisposed (cleared k s) = instanceDisposed s.
Proof. unfold cleared. by destruct (slot_truthy _). Qed.

Lemma config_cleared k s : config (cleared k s) = config s.
Proof. unfold cleared. by destruct (slot_truthy _). Qed.

(** The state after a silent [remove] on a live instance. *)
Lemma remove_silent_cleared k s :
  instanceDisposed s = false → (remove k None s).2 = cleared k s.
Proof.
  intros Hd. rewrite remove_unfold, Hd. unfold cleared.
  by destruct (slot_truthy _).
Qed.

(** X3.  A [put] followed by a [get] of the same key reads back what was
    written: on a live instance, for every key (inherited names and
    [__proto__] included), [get(k)] after [put(k, v, ttl)] returns the very
    entry that [put] returned, holding [v], and emits [FC_GET] for it. *)
Theorem get_after_put_returns_the_entry s now k v expiryIn :
  instanceDisposed s = false →
  ∃ e s1,
    put now (Some k) (Some v) expiryIn s = (Returned e, s1) ∧
    value e = v ∧
    get (Some k) s1 =
      (Returned (SEntry e), with_event (Emit FC_GET (KeyData k (SEntry e))) s1).
Proof.
  intros Hd. rewrite put_live_unfold by done. eexists _, _.
  split; [reflexivity|]. split; [done|].
  rewrite get_unfold. cbn. rewrite disposed_cleared, Hd.
  by rewrite store_get_set_eq.
Qed.

Lemma get_after_put_returns_the_entry_witness :
  let s := create (Options None None) in
  instanceDisposed s = false ∧
  (∃ e s1,
     put 3 (Some "k"%string) (Some (VStr "v")) (Some (TNum 9)) s = (Returned e, s1) ∧
     value e = VStr "v" ∧
     (get (Some "k"%string) s1).1 = Returned (SEntry e)) ∧
  (∃ e s1,
     put 3 (Some "constructor"%string) (Some VNull) None s = (Returned e, s1) ∧
     value e = VNull ∧
     (get (Some "constructor"%string) s1).1 = Returned (SEntry e)).
Proof.
  intros s. split; [reflexivity|]. split.
  - destruct (get_after_put_returns_the_entry s 3 "k" (VStr "v") (Some (TNum 9)) eq_refl)
      as (e & s1 & Hput & Hv & Hget).
    exists e, s1. split_and!; [exact Hput | exact Hv | by rewrite Hget].
  - destruct (get_after_put_returns_the_entry s 3 "constructor" VNull None eq_refl)
      as (e & s1 & Hput & Hv & Hget).
    exists e, s1. split_and!; [exact Hput | exact Hv | by rewrite Hget].
Defined.

Lemma store_set_over k e1 e2 st :
  own st !! k = None →
  store_set (store_delete (store_set st k e1) k) k e2 = store_set st k e2.
Proof.
  intros Ho. destruct st as [o p]. cbn in Ho. unfold store_set, store_delete. cbn.
  rewrite Ho. destruct (String.eqb_spec k "__proto__") as [->|Hne]; cbn.
  - rewrite lookup_delete_eq. cbn. by rewrite delete_id.
  - rewrite lookup_delete_eq. destruct (String.eqb_spec k "__proto__"); [done|].
    by rewrite delete_insert_eq, delete_id.
Qed.

Lemma expirer_cleared_installed k e s :
  (∀ ts, Expirer.index (cacheExpirer s) !! (ts, k) = None) →
  Expirer.remove (prop_expiryAt (SEntry e)) k (cacheExpirer (installed k e s)) =
  cacheExpirer s.
Proof.
  intros Hfree. unfold installed. cbn.
  destruct (cacheExpirer s) as [ix run iv] eqn:Hx. cbn in Hfree.
  destruct (expiryAt e) as [ts|]; cbn; [|done].
  destruct (ts =? 0); cbn.
  - by rewrite delete_id.
  - by rewrite delete_insert_eq, delete_id.
Qed.

Lemma cleared_installed k e s :
  (∀ ts, Expirer.index (cacheExpirer s) !! (ts, k) = None) →
  cleared k (installed k e s) =
    Cache (store_delete (store_set (cacheStore s) k e) k) (config s)
          (instanceDisposed s) (cacheExpirer s)
          (emitted s ++ [Emit FC_ADD (KeyData k (SEntry e))]).
Proof.
  intros Hfree. unfold cleared. cbn [installed cacheStore].
  rewrite store_get_set_eq. cbn [slot_truthy]. unfold removed.
  f_equal. by apply expirer_cleared_installed.
Qed.

(** X4.  The last [put] wins.  On a live instance in a reachable state, two
    [put]s of the same key in a row leave the store and the expiry index
    exactly as the second [put] alone would have left them, and return the
    same entry: of the first [put] only its [FC_ADD] event remains, and no
    registration of the first entry survives. *)
Theorem last_put_wins s t1 t2 k v1 v2 x1 x2 :
  reachable s → instanceDisposed s = false →
  let s1 := exec (Put t1 (Some k) v1 x1) s in
  ∃ e1 e2,
    (put t1 (Some k) v1 x1 s).1 = Returned e1 ∧
    (put t2 (Some k) v2 x2 s1).1 = Returned e2 ∧
    (put t2 (Some k) v2 x2 s).1 = Returned e2 ∧
    cacheStore (exec (Put t2 (Some k) v2 x2) s1) =
      cacheStore (exec (Put t2 (Some k) v2 x2) s) ∧
    cacheExpirer (exec (Put t2 (Some k) v2 x2) s1) =
      cacheExpirer (exec (Put t2 (Some k) v2 x2) s) ∧
    emitted (exec (Put t2 (Some k) v2 x2) s1) =
      emitted s ++ [Emit FC_ADD (KeyData k (SEntry e1));
                    Emit FC_ADD (KeyData k (SEntry e2))].
Proof.
  intros Hs Hd s1. pose proof (reachable_consistent _ Hs) as Hc.
  assert (s1 = installed k (new_entry t1 v1 (effective_ttl x1 s)) (cleared k s))
    as Hs1 by (unfold s1; cbn [exec]; by rewrite put_live_unfold).
  assert (instanceDisposed s1 = false) as Hd1
    by (rewrite Hs1; cbn; by rewrite disposed_cleared).
  assert (config s1 = config s) as Hcfg by apply exec_config.
  exists (new_entry t1 v1 (effective_ttl x1 s)), (new_entry t2 v2 (effective_ttl x2 s)).
  assert (effective_ttl x2 s1 = effective_ttl x2 s) as Heff
    by (unfold effective_ttl; by rewrite Hcfg).
  cbn [exec]. rewrite !put_live_unfold by done. cbn [fst snd]. rewrite Heff.
  rewrite Hs1, cleared_installed by (intros ts; by apply no_pending_cleared).
  cbn [installed cacheStore cacheExpirer emitted].
  split_and!; try done.
  - apply store_set_over, own_cleared.
  - by rewrite emitted_cleared, <- app_assoc.
Qed.

Lemma last_put_wins_witness :
  let s := execs [Put 0 (Some "k"%string) (Some (VNum 0)) (Some (TNum 30));
                  Put 0 (Some "j"%string) (Some (VNum 0)) None]
                 (create (Options None None)) in
  let one := exec (Put 20 (Some "k"%string) (Some (VNum 2)) (Some (TNum 10000))) s in
  let two := exec (Put 20 (Some "k"%string) (Some (VNum 2)) (Some (TNum 10000)))
                  (exec (Put 10 (Some "k"%string) (Some (VNum 1)) (Some (TNum 50))) s) in
  (reachable s ∧ instanceDisposed s = false) ∧
  cacheStore two = cacheStore one ∧
  cacheExpirer two = cacheExpirer one ∧
  Expirer.index (cacheExpirer two) !! (60, "k"%string) = None.
Proof.
  intros s one two.
  assert (reachable s) as Hs by (apply reachable_execs, reachable_create).
  destruct (last_put_wins s 10 20 "k" (Some (VNum 1)) (Some (VNum 2))
              (Some (TNum 50)) (Some (TNum 10000)) Hs eq_refl)
    as (e1 & e2 & _ & _ & _ & Hstore & Hexp & _).
  split_and!; [exact Hs | reflexivity | exact Hstore | exact Hexp | reflexivity].
Defined.

Lemma store_delete_set st k e :
  own st !! k = None → k ≠ "__proto__"%string →
  store_delete (store_set st k e) k = st.
Proof.
  intros Ho Hk. destruct st as [o p]. cbn in Ho. unfold store_set, store_delete.
  cbn. rewrite Ho. destruct (String.eqb_spec k "__proto__"); [done|]. cbn.
  by rewrite delete_insert_eq, delete_id.
Qed.

(** X5.  A [remove] undoes a [put].  On a live instance in a reachable state
    and for a key other than [__proto__], [put(k, ...)] followed by
    [remove(k)] returns [true] and leaves the store and the expiry index as
    a [remove(k)] alone would have left them: the key has no slot, and no
    registration of the entry just put is left behind. *)
Theorem remove_undoes_put s now k v expiryIn shouldEmit :
  reachable s → instanceDisposed s = false → k ≠ "__proto__"%string →
  let s1 := exec (Put now (Some k) v expiryIn) s in
  (remove k shouldEmit s1).1 = Returned true ∧
  cacheStore (remove k shouldEmit s1).2 = cacheStore (remove k None s).2 ∧
  cacheExpirer (remove k shouldEmit s1).2 = cacheExpirer (remove k None s).2 ∧
  own (cacheStore (remove k shouldEmit s1).2) !! k = None ∧
  pending k (remove k shouldEmit s1).2 = ∅.
Proof.
  intros Hs Hd Hk s1. pose proof (reachable_consistent _ Hs) as Hc.
  assert (∀ ts, Expirer.index (cacheExpirer (cleared k s)) !! (ts, k) = None)
    as Hfree by (intros ts; by apply no_pending_cleared).
  unfold s1. cbn [exec]. rewrite put_live_unfold by done. cbn [snd].
  set (e := new_entry now v (effective_ttl expiryIn s)).
  assert (remove k shouldEmit (installed k e (cleared k s)) =
          (Returned true,
           removed k (SEntry e) (default false shouldEmit)
                   (installed k e (cleared k s)))) as ->.
  { rewrite remove_unfold. cbn [installed instanceDisposed cacheStore].
    by rewrite disposed_cleared, Hd, store_get_set_eq. }
  rewrite remove_silent_cleared by done. cbn [fst snd].
  assert (cacheStore (removed k (SEntry e) (default false shouldEmit)
                        (installed k e (cleared k s))) = cacheStore (cleared k s))
    as Hstore.
  { cbn [removed installed cacheStore].
    apply store_delete_set; [apply own_cleared | done]. }
  assert (cacheExpirer (removed k (SEntry e) (default false shouldEmit)
                          (installed k e (cleared k s))) = cacheExpirer (cleared k s))
    as Hexp.
  { cbn [removed cacheExpirer]. by apply expirer_cleared_installed. }
  split_and!; [done | done | done | |].
  - rewrite Hstore. apply own_cleared.
  - apply pending_none. intros ts. rewrite Hexp. apply Hfree.
Qed.

Lemma remove_undoes_put_witness :
  let s := exec (Put 0 (Some "k"%string) (Some (VNum 0)) (Some (TNum 60)))
                (create (Options None None)) in
  let s1 := exec (Put 10 (Some "k"%string) (Some (VNum 1)) None) s in
  (reachable s ∧ instanceDisposed s = false ∧ "k"%string ≠ "__proto__"%string) ∧
  (remove "k" (Some true) s1).1 = Returned true ∧
  own (cacheStore (remove "k" (Some true) s1).2) !! "k"%string = None ∧
  pending "k" (remove "k" (Some true) s1).2 = ∅.
Proof.
  intros s s1.
  assert (reachable s) as Hs by apply reachable_exec, reachable_create.
  assert ("k"%string ≠ "__proto__"%string) as Hk by discriminate.
  destruct (remove_undoes_put s 10 "k" (Some (VNum 1)) None (Some true) Hs eq_refl Hk)
    as (Hret & _ & _ & Hown & Hpend).
  split_and!; [exact Hs | reflexivity | exact Hk | exact Hret | exact Hown | exact Hpend].
Defined.

(** ** Keys do not disturb each other *)

Lemma pending_ext k (s s' : cache) :
  (∀ ts, Expirer.index (cacheExpirer s') !! (ts, k) =
         Expirer.index (cacheExpirer s) !! (ts, k)) →
  pending k s' = pending k s.
Proof.
  intros Hsame. apply map_eq. intros [ts k']. apply option_eq. intros cb.
  unfold pending. rewrite !map_lookup_filter_Some. cbn.
  split; intros [Hreg ->]; (split; [|done]).
  - by rewrite <- Hsame.
  - by rewrite Hsame.
Qed.

Lemma index_cleared_ne k k' s ts :
  k' ≠ k →
  Expirer.index (cacheExpirer (cleared k s)) !! (ts, k') =
  Expirer.index (cacheExpirer s) !! (ts, k').
Proof.
  intros Hne. unfold cleared. destruct (slot_truthy _); [|done]. cbn.
  unfold Expirer.remove. destruct (prop_expiryAt _) as [[]|]; cbn; try done.
  rewrite lookup_delete_ne; [done | congruence].
Qed.

Lemma index_removed_ne k k' target b s ts :
  k' ≠ k →
  Expirer.index (cacheExpirer (removed k target b s)) !! (ts, k') =
  Expirer.index (cacheExpirer s) !! (ts, k').
Proof.
  intros Hne. cbn.
  unfold Expirer.remove. destruct (prop_expiryAt _) as [[]|]; cbn; try done.
  rewrite lookup_delete_ne; [done | congruence].
Qed.

Lemma index_installed_ne k k' e s ts :
  k' ≠ k →
  Expirer.index (cacheExpirer (installed k e s)) !! (ts, k') =
  Expirer.index (cacheExpirer s) !! (ts, k').
Proof.
  intros Hne. cbn. destruct (expiryAt e) as [te|]; [|done].
  destruct (te =? 0); cbn; [done|].
  rewrite lookup_insert_ne; [done | congruence].
Qed.

Lemma own_cleared_ne k k' s :
  k' ≠ k → own (cacheStore (cleared k s)) !! k' = own (cacheStore s) !! k'.
Proof.
  intros Hne. unfold cleared. destruct (slot_truthy _); [|done].
  cbn. by rewrite lookup_delete_ne.
Qed.

(** X6.  Calls on other keys leave a key alone.  A [put] or [remove] of
    another key, and any [get], change neither the store slot of [k] nor its
    pending registrations; if [k] has an entry, looking it up still yields
    that entry. *)
Theorem calls_on_other_keys_leave_a_key_alone o k s :
  is_call o = true → touches k o = false →
  own (cacheStore (exec o s)) !! k = own (cacheStore s) !! k ∧
  pending k (exec o s) = pending k s ∧
  ∀ e, own (cacheStore s) !! k = Some e →
       store_get (cacheStore (exec o s)) k = SEntry e.
Proof.
  intros Hcall Ht.
  assert (own (cacheStore (exec o s)) !! k = own (cacheStore s) !! k ∧
          pending k (exec o s) = pending k s) as [Hown Hpend].
  { destruct o as [now key v t | key | key b | | now]; cbn [exec touches] in *;
      try discriminate.
    - apply String.eqb_neq in Ht.
      rewrite put_unfold. destruct (instanceDisposed s); [done|]. cbn [snd]. split.
      + cbn. rewrite own_store_set_ne by done. by apply own_cleared_ne.
      + apply pending_ext. intros ts.
        rewrite index_installed_ne by done. by apply index_cleared_ne.
    - rewrite get_unfold. destruct (instanceDisposed s); [done|]. cbn.
      by destruct (slot_truthy _).
    - apply String.eqb_neq in Ht.
      rewrite remove_unfold. destruct (instanceDisposed s); [done|].
      destruct (slot_truthy _); [|done]. cbn [snd]. split.
      + cbn. by rewrite lookup_delete_ne.
      + apply pending_ext. intros ts. by apply index_removed_ne. }
  split_and!; [done..|].
  intros e He. apply store_get_own. by rewrite Hown.
Qed.

Lemma calls_on_other_keys_leave_a_key_alone_witness :
  let s := exec (Put 0 (Some "k"%string) (Some (VNum 0)) (Some (TNum 60)))
                (create (Options None None)) in
  let o := Put 5 (Some "__proto__"%string) (Some (VStr "x")) (Some (TNum 1)) in
  (is_call o = true ∧ touches "k" o = false) ∧
  store_get (cacheStore (exec o s)) "k" = SEntry (Entry (VNum 0) 0 (Some 60)) ∧
  pending "k" (exec o s) = pending "k" s.
Proof.
  intros s o.
  destruct (calls_on_other_keys_leave_a_key_alone o "k" s eq_refl eq_refl)
    as (_ & Hpend & Hget).
  split_and!; [reflexivity | reflexivity | apply Hget; reflexivity | exact Hpend].
Defined.

(** ** Plain keys: the store as a map *)

(** X7.  [get] on a plain key.  On a live instance and for a key under which
    nothing truthy is inherited, [get] returns the entry of the key and
    emits [FC_GET] for it when the key has one, and returns [null] and emits
    nothing when it has none.  Either way the store, the expirer, the
    configuration and the disposed flag are as before, so that asking again
    gives the same answer. *)
Theorem get_on_plain_keys k s :
  instanceDisposed s = false → plain (cacheStore s) k →
  get (Some k) s =
    match own (cacheStore s) !! k with
    | Some e => (Returned (SEntry e), with_event (Emit FC_GET (KeyData k (SEntry e))) s)
    | None => (Returned null, s)
    end ∧
  cacheStore (get (Some k) s).2 = cacheStore s ∧
  cacheExpirer (get (Some k) s).2 = cacheExpirer s ∧
  (get (Some k) (get (Some k) s).2).1 = (get (Some k) s).1.
Proof.
  intros Hd Hplain. pose proof (get_plain k s Hd Hplain) as Hget.
  destruct (get_changes_only_the_log (Some k) s) as (Hst & Hx & Hd' & _).
  split_and!; [done..|].
  rewrite (get_unfold _ (get (Some k) s).2), Hd', Hd, Hst.
  rewrite (get_unfold _ s), Hd. cbn. by destruct (slot_truthy _).
Qed.

Lemma get_on_plain_keys_witness :
  let s := exec (Put 0 (Some "k"%string) (Some (VNum 0)) (Some (TNum 60)))
                (create (Options None None)) in
  (instanceDisposed s = false ∧ plain (cacheStore s) "k" ∧
   plain (cacheStore s) "absent") ∧
  (get (Some "k"%string) s).1 = Returned (SEntry (Entry (VNum 0) 0 (Some 60))) ∧
  get (Some "absent"%string) s = (Returned null, s).
Proof.
  intros s.
  assert (plain (cacheStore s) "k") as Hk by reflexivity.
  assert (plain (cacheStore s) "absent") as Ha by reflexivity.
  destruct (get_on_plain_keys "k" s eq_refl Hk) as (Hget & _).
  destruct (get_on_plain_keys "absent" s eq_refl Ha) as (Hmiss & _).
  split_and!; [reflexivity | exact Hk | exact Ha | by rewrite Hget | exact Hmiss].
Defined.

(** X8.  [remove] on a plain key.  On a live instance and for a key under
    which nothing truthy is inherited, [remove] returns [true] exactly when
    the key has an entry; it then deletes the slot and emits one
    [FC_REMOVE] for that entry if asked to notify, and nothing otherwise.  On
    a key without entry it returns [false] and changes nothing.  A second
    [remove] of the key always returns [false] and changes nothing. *)
Theorem remove_on_plain_keys k shouldEmit s :
  instanceDisposed s = false → plain (cacheStore s) k →
  let s' := (remove k shouldEmit s).2 in
  (remove k shouldEmit s).1 =
    Returned (bool_decide (is_Some (own (cacheStore s) !! k))) ∧
  own (cacheStore s') = delete k (own (cacheStore s)) ∧
  emitted s' =
    match own (cacheStore s) !! k with
    | Some e =>
        if default false shouldEmit
        then emitted s ++ [Emit FC_REMOVE (KeyData k (SEntry e))]
        else emitted s
    | None => emitted s
    end ∧
  (own (cacheStore s) !! k = None → s' = s) ∧
  ∀ again, remove k again s' = (Returned false, s').
Proof.
  intros Hd Hplain s'. destruct (remove_plain k shouldEmit s Hd Hplain) as [Hrem Hagain].
  unfold s'. destruct (own (cacheStore s) !! k) as [e|] eqn:Ho;
    rewrite Hrem in Hagain |- *; cbn [fst snd] in *.
  - split_and!.
    + by rewrite bool_decide_eq_true_2.
    + done.
    + cbn. by destruct (default false shouldEmit).
    + done.
    + exact Hagain.
  - split_and!.
    + by rewrite bool_decide_eq_false_2 by by intros [? ?].
    + by rewrite delete_id.
    + done.
    + done.
    + exact Hagain.
Qed.

Lemma remove_on_plain_keys_witness :
  let s := exec (Put 0 (Some "k"%string) (Some (VNum 0)) (Some (TNum 60)))
                (create (Options None None)) in
  let s' := (remove "k" (Some true) s).2 in
  (instanceDisposed s = false ∧ plain (cacheStore s) "k") ∧
  (remove "k" (Some true) s).1 = Returned true ∧
  remove "k" (Some true) s' = (Returned false, s') ∧
  events_about FC_REMOVE "k" (remove "k" (Some true) s').2 =
    [Emit FC_REMOVE (KeyData "k" (SEntry (Entry (VNum 0) 0 (Some 60))))].
Proof.
  intros s s'.
  assert (plain (cacheStore s) "k") as Hk by reflexivity.
  destruct (remove_on_plain_keys "k" (Some true) s eq_refl Hk)
    as (Hret & _ & _ & _ & Hagain).
  split_and!; [reflexivity | exact Hk | exact Hret | exact (Hagain (Some true))
              | vm_compute; reflexivity].
Defined.

(** X9.  The eviction callback on a plain key.  On a live instance the
    closure [onExpire] that [put] built for a key and an entry returns
    without throwing; it always emits [FC_EXPIRY] for the captured entry,
    then removes the key with notification: [FC_REMOVE] follows for the
    entry the store holds, if it holds one, and nothing follows if the key is
    already gone.  Afterwards the key has no slot and [get] returns
    [null]. *)
Theorem callback_on_plain_keys k target s :
  instanceDisposed s = false → plain (cacheStore s) k →
  ∃ s',
    onExpire (OnExpire k target) s = (Returned tt, s') ∧
    emitted s' =
      emitted s ++
      Emit FC_EXPIRY (KeyData k (SEntry target)) ::
      match own (cacheStore s) !! k with
      | Some e => [Emit FC_REMOVE (KeyData k (SEntry e))]
      | None => []
      end ∧
    own (cacheStore s') = delete k (own (cacheStore s)) ∧
    get (Some k) s' = (Returned null, s').
Proof.
  intros Hd Hplain. rewrite onExpire_unfold by done. cbn [cb_key cb_target].
  eexists. split; [reflexivity|]. rewrite get_unfold.
  destruct (own (cacheStore s) !! k) as [e|] eqn:Ho.
  - rewrite (store_get_own _ _ _ Ho). cbn. rewrite Hd, Hplain.
    split_and!; try done. by rewrite <- app_assoc.
  - unfold plain in Hplain. rewrite store_delete_absent in Hplain by done.
    rewrite Hplain. cbn. rewrite Hd, Hplain. split_and!; try done.
    by rewrite delete_id.
Qed.

Lemma callback_on_plain_keys_witness :
  let e := Entry (VNum 0) 0 (Some 60) in
  let s := exec (Put 0 (Some "k"%string) (Some (VNum 0)) (Some (TNum 60)))
                (create (Options None None)) in
  (instanceDisposed s = false ∧ plain (cacheStore s) "k") ∧
  ∃ s', onExpire (OnExpire "k" e) s = (Returned tt, s') ∧
        emitted s' = emitted s ++ [Emit FC_EXPIRY (KeyData "k" (SEntry e));
                                   Emit FC_REMOVE (KeyData "k" (SEntry e))] ∧
        get (Some "k"%string) s' = (Returned null, s').
Proof.
  intros e s.
  assert (plain (cacheStore s) "k") as Hk by reflexivity.
  destruct (callback_on_plain_keys "k" e s eq_refl Hk) as (s' & Hrun & Hev & _ & Hget).
  split; [split; [reflexivity | exact Hk]|].
  exists s'. split_and!; [exact Hrun | exact Hev | exact Hget].
Defined.

Lemma proto_store_set_ne st k e :
  k ≠ "__proto__"%string → proto (store_set st k e) = proto st.
Proof.
  intros Hk. unfold store_set. destruct (own st !! k); [done|].
  by destruct (String.eqb_spec k "__proto__").
Qed.

Lemma proto_cleared k s : proto (cacheStore (cleared k s)) = proto (cacheStore s).
Proof. unfold cleared. by destruct (slot_truthy _). Qed.

Lemma exec_proto o s :
  sets_prototype o = false →
  proto (cacheStore (exec o s)) = proto (cacheStore s).
Proof.
  intros Ho. destruct o as [now key v t | key | key b | | now];
    cbn [exec sets_prototype] in *.
  - apply String.eqb_neq in Ho.
    rewrite put_unfold. destruct (instanceDisposed s); [done|]. cbn.
    rewrite proto_store_set_ne by done. apply proto_cleared.
  - rewrite get_unfold. destruct (instanceDisposed s); [done|]. cbn.
    by destruct (slot_truthy _).
  - apply remove_frame.
  - rewrite dispose_unfold. by destruct (instanceDisposed s).
  - apply tick_frame.
Qed.

(** X10.  Without [__proto__], the store is a map on ordinary keys.  In any
    run of an instance in which no [put] uses the key [__proto__], the
    prototype of the store stays [Object.prototype]; for every key other
    than [__proto__] and the method names of [Object.prototype], looking the
    key up then yields its entry if it has one and [undefined] otherwise, so
    the key is plain. *)
Theorem store_is_a_map_on_ordinary_keys opts os k :
  Forall (λ o, sets_prototype o = false) os →
  k ∉ object_prototype_methods → k ≠ "__proto__"%string →
  let s := execs os (create opts) in
  proto (cacheStore s) = None ∧
  store_get (cacheStore s) k =
    match own (cacheStore s) !! k with
    | Some e => SEntry e
    | None => SUndefined
    end ∧
  plain (cacheStore s) k.
Proof.
  intros Hos Hk Hne s.
  assert (proto (cacheStore s) = None) as Hp.
  { unfold s. generalize (create opts) (eq_refl : proto (cacheStore (create opts)) = None).
    induction Hos as [|o os Ho _ IH]; intros c Hc; [done|].
    apply (IH (exec o c)). by rewrite exec_proto. }
  split_and!; [done | | by apply plain_ordinary].
  unfold store_get. rewrite Hp. cbn.
  destruct (own (cacheStore s) !! k); [done|].
  destruct (String.eqb_spec k "__proto__"); [done|].
  unfold object_prototype_get. by rewrite bool_decide_eq_false_2.
Qed.

Lemma store_is_a_map_on_ordinary_keys_witness :
  let os := [Put 0 (Some "k"%string) (Some (VNum 0)) (Some (TNum 60));
             Put 1 (Some "toString"%string) None None; Tick 100;
             Remove "k" None] in
  let s := execs os (create (Options None None)) in
  (Forall (λ o, sets_prototype o = false) os ∧
   ("k"%string ∉ object_prototype_methods) ∧ "k"%string ≠ "__proto__"%string) ∧
  proto (cacheStore s) = None ∧
  store_get (cacheStore s) "k" = SUndefined ∧
  plain (cacheStore s) "k".
Proof.
  intros os s.
  assert (Forall (λ o, sets_prototype o = false) os) as Hos
    by (repeat apply Forall_cons_2; try apply Forall_nil_2; reflexivity).
  assert ("k"%string ∉ object_prototype_methods) as Hk
    by (apply (bool_decide_unpack _); vm_compute; exact I).
  assert ("k"%string ≠ "__proto__"%string) as Hne by discriminate.
  destruct (store_is_a_map_on_ordinary_keys (Options None None) os "k" Hos Hk Hne)
    as (Hp & Hget & Hplain).
  split_and!; [exact Hos | exact Hk | exact Hne | exact Hp | exact Hget | exact Hplain].
Defined.

(** ** The key [__proto__] *)

Lemma get_hit k s x :
  instanceDisposed s = false → store_get (cacheStore s) k = x →
  slot_truthy x = true →
  get (Some k) s = (Returned x, with_event (Emit FC_GET (KeyData k x)) s).
Proof.
  intros Hd <- Ht. rewrite get_unfold, Hd. cbn. by rewrite Ht.
Qed.

(** X11.  [put] under the key [__proto__] creates no store slot: it replaces
    the prototype of the store.  On a live instance in a reachable state the
    own keys are as before; the entry is what [get("__proto__")] returns, and
    its value shows through under the key "value" unless an own entry
    shadows it.  [remove("__proto__")] returns [true] but deletes nothing,
    so the entry is still there, and neither does [dispose] clear it. *)
Theorem proto_key_replaces_the_prototype s now v expiryIn :
  reachable s → instanceDisposed s = false →
  let s1 := exec (Put now (Some "__proto__"%string) (Some v) expiryIn) s in
  ∃ e,
    (put now (Some "__proto__"%string) (Some v) expiryIn s).1 = Returned e ∧
    value e = v ∧
    own (cacheStore s1) = own (cacheStore s) ∧
    proto (cacheStore s1) = Some e ∧
    (get (Some "__proto__"%string) s1).1 = Returned (SEntry e) ∧
    (own (cacheStore s) !! "value"%string = None →
     store_get (cacheStore s1) "value" = SValue v) ∧
    (∀ shouldEmit,
       (remove "__proto__" shouldEmit s1).1 = Returned true ∧
       cacheStore (remove "__proto__" shouldEmit s1).2 = cacheStore s1) ∧
    proto (cacheStore (dispose s1).2) = Some e.
Proof.
  intros Hs Hd s1. pose proof (reachable_consistent _ Hs) as Hc.
  pose proof (proto_not_own _ Hc) as Hno.
  assert (cleared "__proto__" s =
          with_expirer (λ _, cacheExpirer (cleared "__proto__" s)) s) as Hcl.
  { unfold cleared. destruct (slot_truthy _); [|by destruct s].
    unfold removed, with_expirer. cbn. by rewrite store_delete_absent. }
  assert (cacheStore s1 =
          Store (own (cacheStore s))
                (Some (new_entry now (Some v) (effective_ttl expiryIn s)))) as Hst.
  { unfold s1. cbn [exec]. rewrite put_live_unfold by done.
    cbn [snd installed cacheStore]. rewrite Hcl. cbn [with_expirer cacheStore].
    unfold store_set. by rewrite Hno. }
  assert (instanceDisposed s1 = false) as Hd1.
  { unfold s1. cbn [exec]. rewrite put_live_unfold by done. cbn.
    by rewrite disposed_cleared. }
  assert (store_get (cacheStore s1) "__proto__" =
          SEntry (new_entry now (Some v) (effective_ttl expiryIn s))) as Hget.
  { rewrite Hst. unfold store_get. cbn. by rewrite Hno. }
  exists (new_entry now (Some v) (effective_ttl expiryIn s)).
  split_and!.
  - by rewrite put_live_unfold.
  - done.
  - by rewrite Hst.
  - by rewrite Hst.
  - by rewrite (get_hit _ _ _ Hd1 Hget).
  - intros Hval. rewrite Hst. unfold store_get. cbn. by rewrite Hval.
  - intros b. rewrite remove_unfold, Hd1, Hget.
    cbn [slot_truthy fst snd removed cacheStore]. split; [done|].
    apply store_delete_absent. by rewrite Hst.
  - rewrite dispose_unfold, Hd1. cbn [snd cacheStore proto]. by rewrite Hst.
Qed.

Lemma proto_key_replaces_the_prototype_witness :
  let s := exec (Put 0 (Some "k"%string) (Some (VNum 0)) None)
                (create (Options None None)) in
  let s1 := exec (Put 5 (Some "__proto__"%string) (Some (VStr "x")) None) s in
  let e := Entry (VStr "x") 5 (Some 60005) in
  (reachable s ∧ instanceDisposed s = false) ∧
  Object_keys (cacheStore s1) = ["k"%string] ∧
  (get (Some "__proto__"%string) s1).1 = Returned (SEntry e) ∧
  (get (Some "value"%string) s1).1 = Returned (SValue (VStr "x")) ∧
  (remove "__proto__" None s1).1 = Returned true ∧
  (get (Some "__proto__"%string) (remove "__proto__" None s1).2).1 = Returned (SEntry e).
Proof.
  intros s s1 e.
  assert (reachable s) as Hs by apply reachable_exec, reachable_create.
  destruct (proto_key_replaces_the_prototype s 5 (VStr "x") None Hs eq_refl)
    as (e' & Hput & _ & _ & _ & Hget & _ & Hrem & _).
  assert (e' = e) as -> by (vm_compute in Hput; injection Hput as Heq; by rewrite <- Heq).
  split_and!; [exact Hs | reflexivity | reflexivity | exact Hget | reflexivity
              | exact (proj1 (Hrem None)) | reflexivity].
Defined.

(** ** The order in which [dispose] removes the keys *)

Lemma sweep_cons k l s :
  instanceDisposed s = false → sweep (k :: l) s = sweep l (cleared k s).
Proof.
  intros Hd. unfold sweep. cbn [forEach]. unfold bind.
  rewrite remove_unfold, Hd. unfold cleared.
  by destruct (slot_truthy _).
Qed.

Lemma expirer_remove_comm (ex1 ex2 : option jsval) k1 k2 (x : Expirer.t callback) :
  Expirer.remove ex1 k1 (Expirer.remove ex2 k2 x) =
  Expirer.remove ex2 k2 (Expirer.remove ex1 k1 x).
Proof.
  unfold Expirer.remove. destruct ex1 as [[]|], ex2 as [[]|]; cbn; try done.
  by rewrite delete_delete.
Qed.

Lemma cleared_comm k1 k2 s :
  cleared k1 (cleared k2 s) = cleared k2 (cleared k1 s).
Proof.
  destruct (decide (k1 = k2)) as [->|Hne]; [done|].
  unfold cleared at 1 3. rewrite !store_get_cleared_ne by done.
  unfold cleared.
  destruct (slot_truthy (store_get (cacheStore s) k1)),
           (slot_truthy (store_get (cacheStore s) k2)); try done.
  unfold removed, store_delete. cbn. f_equal.
  - f_equal. apply delete_delete.
  - apply expirer_remove_comm.
Qed.

Lemma sweep_perm l1 l2 s :
  instanceDisposed s = false → l1 ≡ₚ l2 → sweep l1 s = sweep l2 s.
Proof.
  intros Hd Hperm. revert s Hd.
  induction Hperm as [|k l1 l2 _ IH|k1 k2 l|l1 l2 l3 _ IH1 _ IH2]; intros s Hd.
  - done.
  - rewrite !sweep_cons by done. apply IH. by rewrite disposed_cleared.
  - rewrite !sweep_cons by (by rewrite ?disposed_cleared).
    by rewrite cleared_comm.
  - etrans; [by apply IH1 | by apply IH2].
Qed.

(** X12.  [dispose] does not depend on the order in which the keys are
    enumerated.  On a live instance, removing the own keys of the store one
    by one, silently, leads to the same state whatever the order; [dispose]
    ends in that state with [FC_CLEAR] emitted, the expirer disposed and the
    flag set. *)
Theorem dispose_ignores_key_order keys s :
  instanceDisposed s = false →
  keys ≡ₚ Object_keys (cacheStore s) →
  sweep keys s = sweep (Object_keys (cacheStore s)) s ∧
  dispose s =
    (Returned true,
     with_disposed true
       (with_expirer Expirer.dispose
          (with_event (Emit FC_CLEAR NoData) (sweep keys s)))).
Proof.
  intros Hd Hperm. pose proof (sweep_perm _ _ s Hd Hperm) as Hsweep.
  split; [done|]. rewrite Hsweep. unfold sweep.
  destruct (forEach_remove_silent (Object_keys (cacheStore s)) s Hd)
    as (s' & Hrun & _).
  unfold dispose, bind, checkIfInstanceIsDisposed, bind, gets. rewrite Hd.
  cbn [ret]. by rewrite Hrun.
Qed.

Lemma dispose_ignores_key_order_witness :
  let s := execs [Put 0 (Some "b"%string) (Some (VNum 0)) (Some (TNum 60));
                  Put 1 (Some "a"%string) (Some (VNum 1)) None;
                  Put 2 (Some "c"%string) (Some (VNum 2)) (Some (TBool false))]
                 (create (Options None None)) in
  (instanceDisposed s = false ∧
   ["b"; "a"; "c"]%string ≡ₚ Object_keys (cacheStore s)) ∧
  sweep ["b"; "a"; "c"]%string s = sweep ["c"; "a"; "b"]%string s ∧
  (dispose s).2 =
    with_disposed true
      (with_expirer Expirer.dispose
         (with_event (Emit FC_CLEAR NoData) (sweep ["b"; "a"; "c"]%string s))).
Proof.
  intros s.
  assert (["b"; "a"; "c"]%string ≡ₚ Object_keys (cacheStore s)) as H1.
  { apply (bool_decide_unpack _). vm_compute. exact I. }
  assert (["c"; "a"; "b"]%string ≡ₚ Object_keys (cacheStore s)) as H2.
  { apply (bool_decide_unpack _). vm_compute. exact I. }
  destruct (dispose_ignores_key_order _ s eq_refl H1) as [Hs1 Hd1].
  destruct (dispose_ignores_key_order _ s eq_refl H2) as [Hs2 _].
  split_and!; [reflexivity | exact H1 | by rewrite Hs1, Hs2 | by rewrite Hd1].
Defined.
